(** * A Scheme-like interpreter: parser (parser.cpp) and evaluator (evaluation.cpp)

    The expression tree, the parser [Syntax -> Expr] and the evaluator are
    embedded as executable functions.  Values are heap objects reached through
    handles (the program's shared pointers), so that pointer identity ([eq?]),
    in-place mutation of pairs and of environment cells, and the sharing of an
    environment between closures are all visible in the model. *)

From stdpp Require Import base list strings gmap.
From Stdlib Require Import ZArith Lia.
From Stdlib Require QArith_base.

Set Warnings "-register-all".

Local Open Scope string_scope.
Local Open Scope list_scope.
Local Open Scope Z_scope.

(** ** Machine integers *)

(** [int] is 32 bits wide.  C++ leaves signed overflow undefined; the model
    takes [+], [-] and [*] on [int] modulo [2^32] into the signed range, as the
    machine does. *)
Definition INT_MAX : Z := 2147483647.
Definition INT_MIN : Z := -2147483648.

Definition wrap32 (z : Z) : Z := (z + 2147483648) mod 4294967296 - 2147483648.

Definition int_add (a b : Z) : Z := wrap32 (a + b).
Definition int_sub (a b : Z) : Z := wrap32 (a - b).
Definition int_mul (a b : Z) : Z := wrap32 (a * b).

(** ** Syntax trees (the reader's output) *)

Inductive Syntax : Type :=
| Number (n : Z)
| RationalSyntax (numerator denominator : Z)
| SymbolSyntax (s : string)
| StringSyntax (s : string)
| TrueSyntax
| FalseSyntax
| List (stxs : list Syntax).

(** ** Expression trees *)

(** Tags of the primitive and reserved-word tables.  The tags named in the two
    source files come first. *)
Inductive ExprType : Type :=
| E_VOID | E_EXIT | E_BOOLQ | E_INTQ | E_NULLQ | E_PAIRQ | E_PROCQ
| E_SYMBOLQ | E_STRINGQ | E_DISPLAY | E_PLUS | E_MINUS | E_MUL | E_DIV
| E_MODULO | E_EXPT | E_EQQ | E_LIST | E_CONS | E_CAR | E_CDR | E_SETCAR
| E_SETCDR | E_NOT | E_LISTQ
| E_BEGIN | E_QUOTE | E_IF | E_LAMBDA | E_DEFINE | E_LET | E_LETREC | E_SET
| E_COND
| E_LT | E_LE | E_EQ | E_GE | E_GT | E_AND | E_OR.

Global Instance ExprType_eq_dec : EqDecision ExprType.
Proof. solve_decision. Defined.

(** One-operand primitives: the classes with [evalRator (const Value &)]. *)
Inductive UnaryOp : Type :=
| IsBoolean | IsFixnum | IsNull | IsPair | IsProcedure | IsSymbol | IsString
| IsList | Car | Cdr | Not | Display.

(** Two-operand primitives: [evalRator (const Value &, const Value &)]. *)
Inductive BinaryOp : Type :=
| Plus | Minus | Mult | Div | Modulo | Expt
| Less | LessEq | Equal | GreaterEq | Greater
| Cons | SetCar | SetCdr | IsEq.

(** Primitives over a vector of operands:
    [evalRator (const std::vector<Value> &)]. *)
Inductive VariadicOp : Type :=
| PlusVar | MinusVar | MultVar | DivVar
| LessVar | LessEqVar | EqualVar | GreaterEqVar | GreaterVar
| ListFunc.

Inductive Expr : Type :=
| Fixnum (n : Z)
| RationalNum (numerator denominator : Z)
| StringExpr (s : string)
| ETrue
| EFalse
| MakeVoid
| Exit
| Unary (op : UnaryOp) (rand : Expr)
| Binary (op : BinaryOp) (rand1 rand2 : Expr)
| Variadic (op : VariadicOp) (rands : list Expr)
| Var (x : string)
| Begin (es : list Expr)
| Quote (s : Syntax)
| AndVar (rands : list Expr)
| OrVar (rands : list Expr)
| If (cond conseq alter : Expr)
| Cond (clauses : list (list Expr))
| Lambda (x : list string) (e : Expr)
| Apply (rator : Expr) (rand : list Expr)
| Define (var : string) (e : Expr)
| Let (bind : list (string * Expr)) (body : Expr)
| Letrec (bind : list (string * Expr)) (body : Expr)
| SetE (var : string) (e : Expr).

(** ** Values, environments and the store *)

(** A [Value] is a shared pointer: [None] is the null pointer, [Some p] the
    address of a heap object. *)
Definition Value : Type := option nat.

(** An environment handle.  Each binding names a mutable cell of the store; the
    chain itself never changes, so two handles that share a suffix share its
    cells. *)
Definition Assoc : Type := list (string * nat).

Inductive ValueBase : Type :=
| Integer (n : Z)
| Rational (numerator denominator : Z)
| Boolean (b : bool)
| StringO (s : string)
| Symbol (s : string)
| Null
| Void
| Terminate
| Pair (car cdr : Value)
| Procedure (parameters : list string) (e : Expr) (env : Assoc).

(** What [display] sends to standard output. *)
Inductive Output : Type :=
| Wrote (s : string)
| Showed (v : ValueBase).

Record State : Type := mkState {
  heap : list ValueBase;
  cells : list Value;
  out : list Output
}.

Definition initial : State := mkState [] [] [].

(** ** Outcomes *)

(** [Throw] is a raised [RuntimeError]; the effects done before it stay.
    [Undefined] is C++ undefined behaviour: a null handle dereferenced, or a
    value-returning function that ends without [return].  [OutOfFuel] is an
    evaluation that did not finish within the recursion budget. *)
Inductive Outcome (A : Type) : Type :=
| Ok (a : A) (st : State)
| Throw (msg : string) (st : State)
| Undefined
| OutOfFuel.

Arguments Ok {A} a st.
Arguments Throw {A} msg st.
Arguments Undefined {A}.
Arguments OutOfFuel {A}.

Definition M (A : Type) : Type := State -> Outcome A.

Definition ret {A} (a : A) : M A := fun st => Ok a st.

Definition bind {A B} (m : M A) (k : A -> M B) : M B :=
  fun st =>
    match m st with
    | Ok a st' => k a st'
    | Throw msg st' => Throw msg st'
    | Undefined => Undefined
    | OutOfFuel => OutOfFuel
    end.

Definition throw {A} (msg : string) : M A := fun st => Throw msg st.
Definition undefined {A} : M A := fun _ => Undefined.
Definition out_of_fuel {A} : M A := fun _ => OutOfFuel.

Notation "'let*' x ':=' m 'in' k" := (bind m (fun x => k))
  (at level 10, x pattern, m at level 100, k at level 200, only parsing).

(** Reading through a handle; [None] when the handle is null. *)
Definition deref (v : Value) (st : State) : option ValueBase :=
  match v with
  | None => None
  | Some p => heap st !! p
  end.

(** [v->...] in the source: a null handle is undefined behaviour. *)
Definition obj (v : Value) : M ValueBase :=
  fun st =>
    match deref v st with
    | Some o => Ok o st
    | None => Undefined
    end.

(** Modelled from the spec: the value constructors [IntegerV], [RationalV],
    [BooleanV], ... of value.cpp, which is not among the sources.  Each call
    creates a new object; a rational stores numerator and denominator as
    given. *)
Definition new_value (o : ValueBase) : M Value :=
  fun st => Ok (Some (length (heap st)))
               (mkState (heap st ++ [o]) (cells st) (out st)).

Definition IntegerV (n : Z) : M Value := new_value (Integer n).
Definition RationalV (num den : Z) : M Value := new_value (Rational num den).
Definition BooleanV (b : bool) : M Value := new_value (Boolean b).
Definition StringV (s : string) : M Value := new_value (StringO s).
Definition SymbolV (s : string) : M Value := new_value (Symbol s).
Definition NullV : M Value := new_value Null.
Definition VoidV : M Value := new_value Void.
Definition TerminateV : M Value := new_value Terminate.
Definition PairV (a d : Value) : M Value := new_value (Pair a d).
Definition ProcedureV (ps : list string) (body : Expr) (env : Assoc) : M Value :=
  new_value (Procedure ps body env).

(** Modelled from the spec: [empty], [extend], [find] and [modify] of the
    environment (value.cpp).  [extend] puts a fresh cell in front of the chain
    and leaves the chain it extends untouched; [find] searches from the
    innermost binding outwards and answers the null handle when the name is
    absent; [modify] overwrites the first cell bound to the name, in place, so
    that every handle sharing the cell sees the new value, and signals a
    [RuntimeError] when the name is absent (the text of its message is not
    known). *)
Definition empty : Assoc := [].

Definition extend (x : string) (v : Value) (env : Assoc) : M Assoc :=
  fun st => Ok ((x, length (cells st)) :: env)
               (mkState (heap st) (cells st ++ [v]) (out st)).

Fixpoint find (x : string) (env : Assoc) (st : State) : Value :=
  match env with
  | [] => None
  | (y, c) :: rest =>
      if String.eqb x y then default None (cells st !! c) else find x rest st
  end.

Fixpoint modify_cell (x : string) (env : Assoc) : option nat :=
  match env with
  | [] => None
  | (y, c) :: rest => if String.eqb x y then Some c else modify_cell x rest
  end.

Definition modify (x : string) (v : Value) (env : Assoc) : M unit :=
  fun st =>
    match modify_cell x env with
    | Some c => Ok tt (mkState (heap st) (<[c := v]> (cells st)) (out st))
    | None => Throw "modify: unbound variable" st
    end.

(** ** Primitive operations ([evalRator]) *)

Definition tag_is_bool (o : ValueBase) : bool :=
  match o with Boolean _ => true | _ => false end.
Definition tag_is_int (o : ValueBase) : bool :=
  match o with Integer _ => true | _ => false end.
Definition tag_is_null (o : ValueBase) : bool :=
  match o with Null => true | _ => false end.
Definition tag_is_pair (o : ValueBase) : bool :=
  match o with Pair _ _ => true | _ => false end.
Definition tag_is_proc (o : ValueBase) : bool :=
  match o with Procedure _ _ _ => true | _ => false end.
Definition tag_is_sym (o : ValueBase) : bool :=
  match o with Symbol _ => true | _ => false end.
Definition tag_is_string (o : ValueBase) : bool :=
  match o with StringO _ => true | _ => false end.

(** Only the boolean [false] is falsy. *)
Definition is_false (o : ValueBase) : bool :=
  match o with Boolean false => true | _ => false end.

Definition Plus_evalRator (a b : Value) : M Value :=
  let* oa := obj a in
  match oa with
  | Integer n1 =>
      let* ob := obj b in
      match ob with
      | Integer n2 => IntegerV (int_add n1 n2)
      | Rational num den => RationalV (int_add (int_mul n1 den) num) den
      | _ => throw "Wrong typename"
      end
  | Rational num1 den1 =>
      let* ob := obj b in
      match ob with
      | Integer n2 => RationalV (int_add num1 (int_mul n2 den1)) den1
      | Rational num2 den2 =>
          RationalV (int_add (int_mul num1 den2) (int_mul num2 den1))
                    (int_mul den1 den2)
      | _ => throw "Wrong typename"
      end
  | _ => throw "Wrong typename"
  end.

Definition Minus_evalRator (a b : Value) : M Value :=
  let* oa := obj a in
  match oa with
  | Integer n1 =>
      let* ob := obj b in
      match ob with
      | Integer n2 => IntegerV (int_sub n1 n2)
      | Rational num den => RationalV (int_sub (int_mul n1 den) num) den
      | _ => throw "Wrong typename"
      end
  | Rational num1 den1 =>
      let* ob := obj b in
      match ob with
      | Integer n2 => RationalV (int_sub num1 (int_mul n2 den1)) den1
      | Rational num2 den2 =>
          RationalV (int_sub (int_mul num1 den2) (int_mul num2 den1))
                    (int_mul den1 den2)
      | _ => throw "Wrong typename"
      end
  | _ => throw "Wrong typename"
  end.

Definition Mult_evalRator (a b : Value) : M Value :=
  let* oa := obj a in
  match oa with
  | Integer n1 =>
      let* ob := obj b in
      match ob with
      | Integer n2 => IntegerV (int_mul n1 n2)
      | Rational num den => RationalV (int_mul n1 num) den
      | _ => throw "Wrong typename"
      end
  | Rational num1 den1 =>
      let* ob := obj b in
      match ob with
      | Integer n2 => RationalV (int_mul num1 n2) den1
      | Rational num2 den2 =>
          RationalV (int_mul num1 num2) (int_mul den1 den2)
      | _ => throw "Wrong typename"
      end
  | _ => throw "Wrong typename"
  end.

(** The divisor is inspected first: a zero integer or a rational with zero
    numerator is rejected before the dividend is looked at. *)
Definition Div_evalRator (a b : Value) : M Value :=
  let* ob := obj b in
  match ob with
  | Integer n2 =>
      if n2 =? 0 then throw "Division by zero" else
      let* oa := obj a in
      match oa with
      | Integer n1 => RationalV n1 n2
      | Rational num den => RationalV num (int_mul den n2)
      | _ => throw "Wrong typename"
      end
  | Rational num2 den2 =>
      if num2 =? 0 then throw "Division by zero" else
      let* oa := obj a in
      match oa with
      | Integer n1 => RationalV (int_mul n1 den2) num2
      | Rational num1 den1 =>
          RationalV (int_mul num1 den2) (int_mul den1 num2)
      | _ => throw "Wrong typename"
      end
  | _ =>
      let* oa := obj a in
      throw "Wrong typename"
  end.

(** [%] truncates towards zero; [INT_MIN % -1] overflows, which C++ leaves
    undefined. *)
Definition Modulo_evalRator (rand1 rand2 : Value) : M Value :=
  let* o1 := obj rand1 in
  match o1 with
  | Integer dividend =>
      let* o2 := obj rand2 in
      match o2 with
      | Integer divisor =>
          if divisor =? 0 then throw "Division by zero"
          else if (dividend =? INT_MIN) && (divisor =? -1) then undefined
          else IntegerV (Z.rem dividend divisor)
      | _ => throw "modulo is only defined for integers"
      end
  | _ => throw "modulo is only defined for integers"
  end.

Definition fits_int (z : Z) : bool := (INT_MIN <=? z) && (z <=? INT_MAX).

(** The square-and-multiply loop of [expt], one iteration per binary digit of
    the exponent; [None] is the overflow exit. *)
Fixpoint expt_loop (exp : positive) (result b : Z) : option Z :=
  match exp with
  | xH =>
      let result' := result * b in
      if fits_int result' then Some result' else None
  | xI exp' =>
      let result' := result * b in
      if fits_int result' then
        let b' := b * b in
        if fits_int b' then expt_loop exp' result' b' else None
      else None
  | xO exp' =>
      let b' := b * b in
      if fits_int b' then expt_loop exp' result b' else None
  end.

Definition Expt_evalRator (rand1 rand2 : Value) : M Value :=
  let* o1 := obj rand1 in
  match o1 with
  | Integer base =>
      let* o2 := obj rand2 in
      match o2 with
      | Integer exponent =>
          if exponent <? 0 then
            throw "Negative exponent not supported for integers"
          else if (base =? 0) && (exponent =? 0) then
            throw "0^0 is undefined"
          else
            match exponent with
            | Zpos exp =>
                match expt_loop exp 1 base with
                | Some result => IntegerV result
                | None => throw "Integer overflow in expt"
                end
            | _ => IntegerV 1
            end
      | _ => throw "Wrong typename"
      end
  | _ => throw "Wrong typename"
  end.

Definition three_way (left right : Z) : Z :=
  if left <? right then -1 else if left >? right then 1 else 0.

(** The comparator shared by the ordering primitives. *)
Definition compareNumericValues (v1 v2 : Value) : M Z :=
  let* o1 := obj v1 in
  match o1 with
  | Integer n1 =>
      let* o2 := obj v2 in
      match o2 with
      | Integer n2 => ret (three_way n1 n2)
      | Rational num2 den2 => ret (three_way (int_mul n1 den2) num2)
      | _ => throw "Wrong typename in numeric comparison"
      end
  | Rational num1 den1 =>
      let* o2 := obj v2 in
      match o2 with
      | Integer n2 => ret (three_way num1 (int_mul n2 den1))
      | Rational num2 den2 =>
          ret (three_way (int_mul num1 den2) (int_mul num2 den1))
      | _ => throw "Wrong typename in numeric comparison"
      end
  | _ => throw "Wrong typename in numeric comparison"
  end.

Definition Less_evalRator (a b : Value) : M Value :=
  let* c := compareNumericValues a b in BooleanV (c <? 0).
Definition LessEq_evalRator (a b : Value) : M Value :=
  let* c := compareNumericValues a b in BooleanV (c <=? 0).
Definition Equal_evalRator (a b : Value) : M Value :=
  let* c := compareNumericValues a b in BooleanV (c =? 0).
Definition GreaterEq_evalRator (a b : Value) : M Value :=
  let* c := compareNumericValues a b in BooleanV (c >=? 0).
Definition Greater_evalRator (a b : Value) : M Value :=
  let* c := compareNumericValues a b in BooleanV (c >? 0).

Definition Cons_evalRator (a d : Value) : M Value := PairV a d.

Definition store_object (p : nat) (o : ValueBase) : M unit :=
  fun st => Ok tt (mkState (<[p := o]> (heap st)) (cells st) (out st)).

Definition SetCar_evalRator (pairv newcar : Value) : M Value :=
  let* o := obj pairv in
  match o, pairv with
  | Pair _ d, Some p => let* _ := store_object p (Pair newcar d) in VoidV
  | _, _ => throw "set-car! on non-pair"
  end.

Definition SetCdr_evalRator (pairv newcdr : Value) : M Value :=
  let* o := obj pairv in
  match o, pairv with
  | Pair a _, Some p => let* _ := store_object p (Pair a newcdr) in VoidV
  | _, _ => throw "set-cdr! on non-pair"
  end.

(** [eq?]: the second operand's tag is read only where the first operand's
    tag leaves the test open; the last branch compares the two pointers. *)
Definition same_pointer (a b : Value) : bool := bool_decide (a = b).

Definition IsEq_evalRator (rand1 rand2 : Value) : M Value :=
  let* o1 := obj rand1 in
  match o1 with
  | Integer n1 =>
      let* o2 := obj rand2 in
      match o2 with
      | Integer n2 => BooleanV (n1 =? n2)
      | _ => BooleanV (same_pointer rand1 rand2)
      end
  | Boolean b1 =>
      let* o2 := obj rand2 in
      match o2 with
      | Boolean b2 => BooleanV (Bool.eqb b1 b2)
      | _ => BooleanV (same_pointer rand1 rand2)
      end
  | Symbol s1 =>
      let* o2 := obj rand2 in
      match o2 with
      | Symbol s2 => BooleanV (String.eqb s1 s2)
      | _ => BooleanV (same_pointer rand1 rand2)
      end
  | Null =>
      let* o2 := obj rand2 in
      match o2 with
      | Null => BooleanV true
      | _ => BooleanV (same_pointer rand1 rand2)
      end
  | Void =>
      let* o2 := obj rand2 in
      match o2 with
      | Void => BooleanV true
      | _ => BooleanV (same_pointer rand1 rand2)
      end
  | _ => BooleanV (same_pointer rand1 rand2)
  end.

(** [list?] follows the [cdr] fields while it sees pairs.  A chain without a
    cycle has at most as many pairs as the heap has objects; on a cyclic chain
    the loop of the source never ends, and the walk runs out of fuel. *)
Fixpoint IsList_walk (fuel : nat) (cur : Value) : M bool :=
  match fuel with
  | O => out_of_fuel
  | S n =>
      let* o := obj cur in
      match o with
      | Pair _ d => IsList_walk n d
      | _ => ret (tag_is_null o)
      end
  end.

Definition IsList_evalRator (v : Value) : M Value :=
  fun st =>
    (let* b := IsList_walk (S (length (heap st))) v in BooleanV b) st.

Definition Car_evalRator (v : Value) : M Value :=
  match v with
  | None => throw "car on invalid value"
  | Some _ =>
      let* o := obj v in
      match o with
      | Pair a _ => ret a
      | _ => throw "car on non-pair"
      end
  end.

Definition Cdr_evalRator (v : Value) : M Value :=
  match v with
  | None => throw "cdr on invalid value"
  | Some _ =>
      let* o := obj v in
      match o with
      | Pair _ d => ret d
      | _ => throw "cdr on non-pair"
      end
  end.

Definition Not_evalRator (v : Value) : M Value :=
  let* o := obj v in BooleanV (is_false o).

Definition write (x : Output) : M unit :=
  fun st => Ok tt (mkState (heap st) (cells st) (out st ++ [x])).

Definition Display_evalRator (rand : Value) : M Value :=
  let* o := obj rand in
  let* _ := match o with
            | StringO s => write (Wrote s)
            | _ => write (Showed o)
            end in
  VoidV.

Definition type_test (test : ValueBase -> bool) (rand : Value) : M Value :=
  let* o := obj rand in BooleanV (test o).

Definition Unary_evalRator (op : UnaryOp) (v : Value) : M Value :=
  match op with
  | IsBoolean => type_test tag_is_bool v
  | IsFixnum => type_test tag_is_int v
  | IsNull => type_test tag_is_null v
  | IsPair => type_test tag_is_pair v
  | IsProcedure => type_test tag_is_proc v
  | IsSymbol => type_test tag_is_sym v
  | IsString => type_test tag_is_string v
  | IsList => IsList_evalRator v
  | Car => Car_evalRator v
  | Cdr => Cdr_evalRator v
  | Not => Not_evalRator v
  | Display => Display_evalRator v
  end.

Definition Binary_evalRator (op : BinaryOp) (a b : Value) : M Value :=
  match op with
  | Plus => Plus_evalRator a b
  | Minus => Minus_evalRator a b
  | Mult => Mult_evalRator a b
  | Div => Div_evalRator a b
  | Modulo => Modulo_evalRator a b
  | Expt => Expt_evalRator a b
  | Less => Less_evalRator a b
  | LessEq => LessEq_evalRator a b
  | Equal => Equal_evalRator a b
  | GreaterEq => GreaterEq_evalRator a b
  | Greater => Greater_evalRator a b
  | Cons => Cons_evalRator a b
  | SetCar => SetCar_evalRator a b
  | SetCdr => SetCdr_evalRator a b
  | IsEq => IsEq_evalRator a b
  end.

(** [list]: the chain is built from the last argument back to the first. *)
Fixpoint ListFunc_evalRator (args : list Value) : M Value :=
  match args with
  | [] => NullV
  | a :: rest => let* lst := ListFunc_evalRator rest in PairV a lst
  end.

(** The variadic arithmetic and ordering primitives have empty bodies in the
    source (each holds a TODO comment only): control reaches the end of a
    value-returning function. *)
Definition Variadic_evalRator (op : VariadicOp) (args : list Value) : M Value :=
  match op with
  | ListFunc => ListFunc_evalRator args
  | PlusVar | MinusVar | MultVar | DivVar => undefined
  | LessVar | LessEqVar | EqualVar | GreaterEqVar | GreaterVar => undefined
  end.

(** [Quote::eval]: a list is rebuilt from its last element to its first. *)
Fixpoint Quote_eval (s : Syntax) : M Value :=
  match s with
  | Number n => IntegerV n
  | RationalSyntax num den => RationalV num den
  | TrueSyntax => BooleanV true
  | FalseSyntax => BooleanV false
  | StringSyntax str => StringV str
  | SymbolSyntax sym => SymbolV sym
  | List stxs =>
      match stxs with
      | [] => NullV
      | _ =>
          (fix from_last (l : list Syntax) : M Value :=
             match l with
             | [] => NullV
             | x :: rest =>
                 let* result := from_last rest in
                 let* elem := Quote_eval x in
                 PairV elem result
             end) stxs
      end
  end.

(** The table inside [Var::eval]: for some primitive tags, the expression that
    stands for the primitive and the parameters it is closed over. *)
Definition primitive_map (t : ExprType) : option (Expr * list string) :=
  match t with
  | E_VOID => Some (MakeVoid, [])
  | E_EXIT => Some (Exit, [])
  | E_BOOLQ => Some (Unary IsBoolean (Var "parm"), ["parm"])
  | E_INTQ => Some (Unary IsFixnum (Var "parm"), ["parm"])
  | E_NULLQ => Some (Unary IsNull (Var "parm"), ["parm"])
  | E_PAIRQ => Some (Unary IsPair (Var "parm"), ["parm"])
  | E_PROCQ => Some (Unary IsProcedure (Var "parm"), ["parm"])
  | E_SYMBOLQ => Some (Unary IsSymbol (Var "parm"), ["parm"])
  | E_STRINGQ => Some (Unary IsString (Var "parm"), ["parm"])
  | E_DISPLAY => Some (Unary Display (Var "parm"), ["parm"])
  | E_PLUS => Some (Variadic PlusVar [], [])
  | E_MINUS => Some (Variadic MinusVar [], [])
  | E_MUL => Some (Variadic MultVar [], [])
  | E_DIV => Some (Variadic DivVar [], [])
  | E_MODULO => Some (Binary Modulo (Var "parm1") (Var "parm2"), ["parm1"; "parm2"])
  | E_EXPT => Some (Binary Expt (Var "parm1") (Var "parm2"), ["parm1"; "parm2"])
  | E_EQQ => Some (Variadic EqualVar [], [])
  | _ => None
  end.

(** ** The evaluator *)

(** The loops of the [eval] methods, over an evaluator [ev] for the
    sub-expressions.  Every [eval] takes its environment by reference
    ([Assoc &e]), so an evaluation also answers the handle the caller holds
    afterwards. *)
Section Loops.
Variable ev : Expr -> Assoc -> M (Value * Assoc).

(** [for (auto &ex : rands) vals.push_back(ex->eval(e))] *)
Fixpoint eval_rands (rands : list Expr) (e : Assoc) : M (list Value * Assoc) :=
  match rands with
  | [] => ret ([], e)
  | ex :: rest =>
      let* (v, e1) := ev ex e in
      let* (vals, e2) := eval_rands rest e1 in
      ret (v :: vals, e2)
  end.

(** [for (auto &ex : es) last = ex->eval(e)] *)
Fixpoint Begin_loop (es : list Expr) (last : Value) (e : Assoc) : M (Value * Assoc) :=
  match es with
  | [] => ret (last, e)
  | ex :: rest => let* (v, e1) := ev ex e in Begin_loop rest v e1
  end.

Fixpoint AndVar_loop (rands : list Expr) (last : Value) (e : Assoc) : M (Value * Assoc) :=
  match rands with
  | [] => ret (last, e)
  | ex :: rest =>
      let* (v, e1) := ev ex e in
      let* o := obj v in
      if is_false o then ret (v, e1) else AndVar_loop rest v e1
  end.

Fixpoint OrVar_loop (rands : list Expr) (last : Value) (e : Assoc) : M (Value * Assoc) :=
  match rands with
  | [] => ret (last, e)
  | ex :: rest =>
      let* (v, e1) := ev ex e in
      let* o := obj v in
      if negb (is_false o) then ret (v, e1) else OrVar_loop rest v e1
  end.

(** [Let::eval]: every right-hand side is evaluated against [env]; [local]
    grows by one binding per right-hand side. *)
Fixpoint Let_loop (bind : list (string * Expr)) (env local : Assoc) : M (Assoc * Assoc) :=
  match bind with
  | [] => ret (env, local)
  | (x, rhs) :: rest =>
      let* (v, env') := ev rhs env in
      let* local' := extend x v local in
      Let_loop rest env' local'
  end.

(** [Letrec::eval], second loop: the right-hand sides against [env1]. *)
Fixpoint Letrec_vals (bind : list (string * Expr)) (env1 : Assoc) : M (list Value * Assoc) :=
  match bind with
  | [] => ret ([], env1)
  | (_, rhs) :: rest =>
      let* (v, env1') := ev rhs env1 in
      let* (vals, env1'') := Letrec_vals rest env1' in
      ret (v :: vals, env1'')
  end.
End Loops.

(** [Letrec::eval], first loop: one placeholder (a null handle) per name. *)
Fixpoint Letrec_placeholders (bind : list (string * Expr)) (env1 : Assoc) : M Assoc :=
  match bind with
  | [] => ret env1
  | (x, _) :: rest =>
      let* env1' := extend x None env1 in Letrec_placeholders rest env1'
  end.

(** [Letrec::eval], third loop: [modify (bind[i].first, vals[i], env2)]. *)
Fixpoint Letrec_assign (bind : list (string * Expr)) (vals : list Value) (env2 : Assoc) : M unit :=
  match bind, vals with
  | (x, _) :: rest, v :: vals' =>
      let* _ := modify x v env2 in Letrec_assign rest vals' env2
  | _, _ => ret tt
  end.

(** [Apply::eval]: [call_env = extend (parameters[i], args[i], call_env)]. *)
Fixpoint bind_parameters (ps : list string) (args : list Value) (call_env : Assoc) : M Assoc :=
  match ps, args with
  | p :: ps', a :: args' =>
      let* call_env' := extend p a call_env in bind_parameters ps' args' call_env'
  | _, _ => ret call_env
  end.

Section Interpreter.
(** The process-wide tables of Def.cpp, which is not among the sources. *)
Variable primitives : gmap string ExprType.
Variable reserved_words : gmap string ExprType.

(** [Binary::eval] is [evalRator (rand1->eval (e), rand2->eval (e))]: C++
    leaves the order in which the two arguments of a call are evaluated to
    the compiler.  [rand1_first] is the compiler's choice. *)
Variable rand1_first : bool.

Definition Binary_rands (ev : Expr -> Assoc -> M (Value * Assoc))
    (rand1 rand2 : Expr) (e : Assoc) : M (Value * Value * Assoc) :=
  if rand1_first then
    let* (a, e1) := ev rand1 e in
    let* (b, e2) := ev rand2 e1 in
    ret (a, b, e2)
  else
    let* (b, e1) := ev rand2 e in
    let* (a, e2) := ev rand1 e1 in
    ret (a, b, e2).

(** [Var::eval].  The handle found in the environment is answered whenever
    it is not null; a null one is replaced by a closure only for a primitive
    name whose tag is in [primitive_map], and is answered as it is
    otherwise. *)
Definition Var_eval (x : string) (e : Assoc) : M Value :=
  fun st =>
    let matched_value := find x e st in
    match matched_value with
    | Some _ => Ok matched_value st
    | None =>
        match primitives !! x with
        | Some t =>
            match primitive_map t with
            | Some (body, ps) => ProcedureV ps body e st
            | None => Ok matched_value st
            end
        | None => Ok matched_value st
        end
    end.

(** One [eval] call: the dispatch on the node kind, over the evaluator [ev]
    used for the calls it makes in turn. *)
Definition eval_node (ev : Expr -> Assoc -> M (Value * Assoc))
    (ex : Expr) (e : Assoc) : M (Value * Assoc) :=
  match ex with
  | Fixnum k => let* v := IntegerV k in ret (v, e)
  | RationalNum num den => let* v := RationalV num den in ret (v, e)
  | StringExpr s => let* v := StringV s in ret (v, e)
  | ETrue => let* v := BooleanV true in ret (v, e)
  | EFalse => let* v := BooleanV false in ret (v, e)
  | MakeVoid => let* v := VoidV in ret (v, e)
  | Exit => let* v := TerminateV in ret (v, e)
  | Unary op rand =>
      let* (v, e1) := ev rand e in
      let* r := Unary_evalRator op v in
      ret (r, e1)
  | Binary op rand1 rand2 =>
      let* (a, b, e1) := Binary_rands ev rand1 rand2 e in
      let* r := Binary_evalRator op a b in
      ret (r, e1)
  | Variadic op rands =>
      let* (vals, e1) := eval_rands ev rands e in
      let* r := Variadic_evalRator op vals in
      ret (r, e1)
  | Var x => let* v := Var_eval x e in ret (v, e)
  | Begin es =>
      let* last := VoidV in
      Begin_loop ev es last e
  | Quote s => let* v := Quote_eval s in ret (v, e)
  | AndVar rands =>
      let* last := BooleanV true in
      AndVar_loop ev rands last e
  | OrVar rands =>
      let* last := BooleanV false in
      OrVar_loop ev rands last e
  | If cond conseq alter =>
      let* (c, e1) := ev cond e in
      let* o := obj c in
      if negb (is_false o) then ev conseq e1 else ev alter e1
  | Cond clauses =>
      (* the body of Cond::eval is a TODO comment: no value is returned *)
      undefined
  | Lambda x body => let* v := ProcedureV x body e in ret (v, e)
  | Apply rator rand =>
      let* (proc, e1) := ev rator e in
      let* o := obj proc in
      match o with
      | Procedure parameters body clos_env =>
          let* (args, e2) := eval_rands ev rand e1 in
          if negb (length args =? length parameters)%nat then
            throw "Wrong number of arguments"
          else
            let* call_env := bind_parameters parameters args clos_env in
            let* (v, _) := ev body call_env in
            ret (v, e2)
      | _ => throw "Attempt to apply a non-procedure"
      end
  | Define var rhs =>
      let* (v, env1) := ev rhs e in
      fun st =>
        match find var env1 st with
        | Some _ => (let* _ := modify var v env1 in ret (v, env1)) st
        | None => (let* env2 := extend var v env1 in ret (v, env2)) st
        end
  | Let bind body =>
      let* (env', local) := Let_loop ev bind e e in
      let* (v, _) := ev body local in
      ret (v, env')
  | Letrec bind body =>
      let* env1 := Letrec_placeholders bind e in
      let* (vals, env2) := Letrec_vals ev bind env1 in
      let* _ := Letrec_assign bind vals env2 in
      let* (v, _) := ev body env2 in
      ret (v, e)
  | SetE var rhs =>
      let* (v, env1) := ev rhs e in
      let* _ := modify var v env1 in
      ret (v, env1)
  end.

(** The evaluator; [fuel] bounds the depth of nested [eval] calls. *)
Fixpoint eval (fuel : nat) : Expr -> Assoc -> M (Value * Assoc) :=
  match fuel with
  | O => fun _ _ => out_of_fuel
  | S n => eval_node (eval n)
  end.
End Interpreter.

(** ** The parser *)

(** A parse either answers an expression or raises a [RuntimeError]. *)
Inductive Parse (A : Type) : Type :=
| Parsed (a : A)
| ParseError (msg : string).

Arguments Parsed {A} a.
Arguments ParseError {A} msg.

Definition pbind {A B} (m : Parse A) (k : A -> Parse B) : Parse B :=
  match m with
  | Parsed a => k a
  | ParseError msg => ParseError msg
  end.

Notation "'parse*' x ':=' m 'in' k" := (pbind m (fun x => k))
  (at level 10, x pattern, m at level 100, k at level 200, only parsing).

(** The arity checks of the primitive branch of [List::parse], once the
    operands are parsed.  A primitive without a case of its own becomes the
    application of the variable that carries its name. *)
Definition unary_node (op : UnaryOp) (name : string) (parameters : list Expr) : Parse Expr :=
  match parameters with
  | [p] => Parsed (Unary op p)
  | _ => ParseError ("Wrong number of arguments for " ++ name)
  end.

Definition binary_node (op : BinaryOp) (name : string) (parameters : list Expr) : Parse Expr :=
  match parameters with
  | [p0; p1] => Parsed (Binary op p0 p1)
  | _ => ParseError ("Wrong number of arguments for " ++ name)
  end.

Definition parse_primitive (op : string) (op_type : ExprType) (parameters : list Expr) : Parse Expr :=
  match op_type with
  | E_PLUS => binary_node Plus "+" parameters
  | E_MINUS => binary_node Minus "-" parameters
  | E_MUL => binary_node Mult "*" parameters
  | E_DIV => binary_node Div "/" parameters
  | E_MODULO => binary_node Modulo "modulo" parameters
  | E_LIST => Parsed (Variadic ListFunc parameters)
  | E_CONS => binary_node Cons "cons" parameters
  | E_CAR => unary_node Car "car" parameters
  | E_CDR => unary_node Cdr "cdr" parameters
  | E_SETCAR => binary_node SetCar "set-car!" parameters
  | E_SETCDR => binary_node SetCdr "set-cdr!" parameters
  | E_NOT => unary_node Not "not" parameters
  | E_DISPLAY => unary_node Display "display" parameters
  | E_EQQ => binary_node IsEq "eq?" parameters
  | E_BOOLQ => unary_node IsBoolean "boolean?" parameters
  | E_INTQ => unary_node IsFixnum "number?" parameters
  | E_NULLQ => unary_node IsNull "null?" parameters
  | E_PAIRQ => unary_node IsPair "pair?" parameters
  | E_PROCQ => unary_node IsProcedure "procedure?" parameters
  | E_SYMBOLQ => unary_node IsSymbol "symbol?" parameters
  | E_LISTQ => unary_node IsList "list?" parameters
  | E_STRINGQ => unary_node IsString "string?" parameters
  | _ => Parsed (Apply (Var op) parameters)
  end.

(** The parameter list of a [lambda]: symbols only. *)
Fixpoint lambda_params (plist : list Syntax) : Parse (list string) :=
  match plist with
  | [] => Parsed []
  | SymbolSyntax sid :: rest =>
      parse* params := lambda_params rest in Parsed (sid :: params)
  | _ :: _ => ParseError "lambda param must be symbol"
  end.

Section Parser.
Variable primitives : gmap string ExprType.
Variable reserved_words : gmap string ExprType.

(** The three arguments of [new If (...)] are parsed in an order the
    compiler picks; only the message of a failing parse depends on it. *)
Variable args_in_order : bool.

(** The environment is only read: is the leading symbol bound? *)
Variable st : State.
Variable env : Assoc.

Fixpoint parse (s : Syntax) {struct s} : Parse Expr :=
  match s with
  | Number n => Parsed (Fixnum n)
  | RationalSyntax numerator denominator => Parsed (RationalNum numerator denominator)
  | SymbolSyntax sym => Parsed (Var sym)
  | StringSyntax str => Parsed (StringExpr str)
  | TrueSyntax => Parsed ETrue
  | FalseSyntax => Parsed EFalse
  | List stxs =>
      let parse_all :=
        fix parse_all (l : list Syntax) : Parse (list Expr) :=
          match l with
          | [] => Parsed []
          | x :: rest =>
              parse* ex := parse x in
              parse* exs := parse_all rest in
              Parsed (ex :: exs)
          end in
      let parse_bindings (shape name : string) :=
        fix parse_bindings (l : list Syntax) : Parse (list (string * Expr)) :=
          match l with
          | [] => Parsed []
          | b :: rest =>
              match b with
              | List [b0; b1] =>
                  match b0 with
                  | SymbolSyntax sid =>
                      parse* rhs := parse b1 in
                      parse* vec := parse_bindings rest in
                      Parsed ((sid, rhs) :: vec)
                  | _ => ParseError name
                  end
              | _ => ParseError shape
              end
          end in
      let parse_clauses :=
        fix parse_clauses (l : list Syntax) : Parse (list (list Expr)) :=
          match l with
          | [] => Parsed []
          | c :: rest =>
              match c with
              | List (c0 :: citems) =>
                  parse* ce0 := parse c0 in
                  parse* ce := parse_all citems in
                  parse* clauses := parse_clauses rest in
                  Parsed ((ce0 :: ce) :: clauses)
              | _ => ParseError "cond clause must be a list"
              end
          end in
      match stxs with
      | [] => Parsed (Quote (List []))
      | SymbolSyntax op :: rest =>
          match find op env st with
          | Some _ =>
              parse* parameters := parse_all rest in
              Parsed (Apply (Var op) parameters)
          | None =>
              match primitives !! op with
              | Some op_type =>
                  parse* parameters := parse_all rest in
                  parse_primitive op op_type parameters
              | None =>
                  match reserved_words !! op with
                  | Some E_BEGIN =>
                      parse* seq := parse_all rest in Parsed (Begin seq)
                  | Some E_QUOTE =>
                      match rest with
                      | [q] => Parsed (Quote q)
                      | _ => ParseError "Wrong number of arguments for quote"
                      end
                  | Some E_IF =>
                      match rest with
                      | [s1; s2; s3] =>
                          if args_in_order then
                            parse* c := parse s1 in
                            parse* t := parse s2 in
                            parse* a := parse s3 in
                            Parsed (If c t a)
                          else
                            parse* a := parse s3 in
                            parse* t := parse s2 in
                            parse* c := parse s1 in
                            Parsed (If c t a)
                      | _ => ParseError "Wrong number of arguments for if"
                      end
                  | Some E_LAMBDA =>
                      match rest with
                      | s1 :: s2 :: _ =>
                          match s1 with
                          | List plist =>
                              parse* params := lambda_params plist in
                              parse* body := parse s2 in
                              Parsed (Lambda params body)
                          | _ => ParseError "lambda params must be a list"
                          end
                      | _ => ParseError "Wrong number of arguments for lambda"
                      end
                  | Some E_DEFINE =>
                      match rest with
                      | [s1; s2] =>
                          match s1 with
                          | SymbolSyntax name =>
                              parse* rhs := parse s2 in Parsed (Define name rhs)
                          | _ => ParseError "define variable must be symbol"
                          end
                      | _ => ParseError "Wrong number of arguments for define"
                      end
                  | Some E_LET =>
                      match rest with
                      | s1 :: s2 :: _ =>
                          match s1 with
                          | List binds =>
                              parse* vec :=
                                parse_bindings "let binding must be (name expr)"
                                               "let binding name must be symbol" binds in
                              parse* body := parse s2 in
                              Parsed (Let vec body)
                          | _ => ParseError "let bindings must be list"
                          end
                      | _ => ParseError "Wrong number of arguments for let"
                      end
                  | Some E_LETREC =>
                      match rest with
                      | s1 :: s2 :: _ =>
                          match s1 with
                          | List binds =>
                              parse* vec :=
                                parse_bindings "letrec binding must be (name expr)"
                                               "letrec binding name must be symbol" binds in
                              parse* body := parse s2 in
                              Parsed (Letrec vec body)
                          | _ => ParseError "letrec bindings must be list"
                          end
                      | _ => ParseError "Wrong number of arguments for letrec"
                      end
                  | Some E_SET =>
                      match rest with
                      | [s1; s2] =>
                          match s1 with
                          | SymbolSyntax name =>
                              parse* rhs := parse s2 in Parsed (SetE name rhs)
                          | _ => ParseError "set! target must be symbol"
                          end
                      | _ => ParseError "Wrong number of arguments for set!"
                      end
                  | Some E_COND =>
                      parse* clauses := parse_clauses rest in
                      Parsed (Cond clauses)
                  | Some _ => ParseError ("Unknown reserved word: " ++ op)
                  | None =>
                      parse* parameters := parse_all rest in
                      Parsed (Apply (Var op) parameters)
                  end
              end
          end
      | first :: rest =>
          parse* args := parse_all rest in
          parse* rator := parse first in
          Parsed (Apply rator args)
      end
  end.
End Parser.

(** ** The tables and whole programs *)

(** Modelled from the spec: the primitive and reserved-word tables of Def.cpp.
    The names are those of the parser's messages and of the spec's lists of
    primitives and special forms. *)
Definition primitives : gmap string ExprType :=
  list_to_map
    [("+", E_PLUS); ("-", E_MINUS); ("*", E_MUL); ("/", E_DIV);
     ("modulo", E_MODULO); ("expt", E_EXPT);
     ("<", E_LT); ("<=", E_LE); ("=", E_EQ); (">=", E_GE); (">", E_GT);
     ("cons", E_CONS); ("car", E_CAR); ("cdr", E_CDR); ("list", E_LIST);
     ("set-car!", E_SETCAR); ("set-cdr!", E_SETCDR);
     ("not", E_NOT); ("and", E_AND); ("or", E_OR);
     ("eq?", E_EQQ); ("boolean?", E_BOOLQ); ("number?", E_INTQ);
     ("null?", E_NULLQ); ("pair?", E_PAIRQ); ("procedure?", E_PROCQ);
     ("symbol?", E_SYMBOLQ); ("list?", E_LISTQ); ("string?", E_STRINGQ);
     ("display", E_DISPLAY); ("void", E_VOID); ("exit", E_EXIT)].

Definition reserved_words : gmap string ExprType :=
  list_to_map
    [("begin", E_BEGIN); ("quote", E_QUOTE); ("if", E_IF); ("cond", E_COND);
     ("lambda", E_LAMBDA); ("define", E_DEFINE); ("let", E_LET);
     ("letrec", E_LETREC); ("set!", E_SET)].

(** One top-level form, as the spec's data flow has it: parsed against the
    environment, then evaluated.  A parse error is a [RuntimeError] like any
    other.  [order] is the compiler's choice of argument order, for the parser
    and the evaluator alike. *)
Definition run (order : bool) (fuel : nat) (s : Syntax) (e : Assoc) : M (Value * Assoc) :=
  fun st =>
    match parse primitives reserved_words order st e s with
    | Parsed ex => eval primitives order fuel ex e st
    | ParseError msg => Throw msg st
    end.

(** The object a finished evaluation answers, if any. *)
Definition answer {A} (r : Outcome (Value * A)) : option ValueBase :=
  match r with
  | Ok (v, _) st => deref v st
  | _ => None
  end.

(** The object a finished primitive answers. *)
Definition value_of (r : Outcome Value) : option ValueBase :=
  match r with
  | Ok v st => deref v st
  | _ => None
  end.

Definition printed {A} (r : Outcome A) : list Output :=
  match r with
  | Ok _ st => out st
  | Throw _ st => out st
  | _ => []
  end.

(** ** Observations and predicates *)

(** The boolean a finished primitive answers. *)
Definition truth (r : Outcome Value) : option bool :=
  match r with
  | Ok v st =>
      match deref v st with
      | Some (Boolean b) => Some b
      | _ => None
      end
  | _ => None
  end.

(** The numeric tower: integers and rationals. *)
Definition is_number (o : ValueBase) : bool :=
  match o with
  | Integer _ | Rational _ _ => true
  | _ => false
  end.

Definition exactly_one (x y z : bool) : bool :=
  (x && negb y && negb z) || (negb x && y && negb z) || (negb x && negb y && z).

(** The type tag every value carries ([v_type] in the source). *)
Inductive ValueType : Type :=
| V_INT | V_RATIONAL | V_BOOL | V_STRING | V_SYM | V_NULL | V_VOID
| V_TERMINATE | V_PAIR | V_PROC.

Definition v_type (o : ValueBase) : ValueType :=
  match o with
  | Integer _ => V_INT
  | Rational _ _ => V_RATIONAL
  | Boolean _ => V_BOOL
  | StringO _ => V_STRING
  | Symbol _ => V_SYM
  | Null => V_NULL
  | Void => V_VOID
  | Terminate => V_TERMINATE
  | Pair _ _ => V_PAIR
  | Procedure _ _ _ => V_PROC
  end.

(** The pairs of kinds that [eq?] settles without looking at the pointers. *)
Definition compared_by_content (oa ob : ValueBase) : bool :=
  match oa, ob with
  | Integer _, Integer _ | Boolean _, Boolean _ | Symbol _, Symbol _
  | Null, Null | Void, Void => true
  | _, _ => false
  end.

(** Numerator and denominator of a number, an integer [n] being [n/1]. *)
Definition num_den (o : ValueBase) : option (Z * Z) :=
  match o with
  | Integer n => Some (n, 1)
  | Rational num den => Some (num, den)
  | _ => None
  end.

(** [below m m']: wherever [m] finishes, [m'] does the same. *)
Definition below {A} (m m' : M A) : Prop :=
  forall st, m st = OutOfFuel \/ m' st = m st.

(** The cells after the third loop of [Letrec::eval]: one [modify] per
    binding, in order. *)
Fixpoint assign_cells (env : Assoc) (bs : list (string * Expr)) (vals : list Value)
    (cs : list Value) : list Value :=
  match bs, vals with
  | (x, _) :: bs', v :: vals' =>
      match modify_cell x env with
      | Some c => assign_cells env bs' vals' (<[c := v]> cs)
      | None => cs
      end
  | _, _ => cs
  end.

(** ** Sample programs and stores *)

(** [(cond (#t 1))] *)
Definition cond_example : Syntax :=
  List [SymbolSyntax "cond"; List [TrueSyntax; Number 1]].

(** [(< 1 2 3)] *)
Definition less_example : Syntax :=
  List [SymbolSyntax "<"; Number 1; Number 2; Number 3].

(** [(cons (display "a") (display "b"))] *)
Definition display_pair : Syntax :=
  List [SymbolSyntax "cons";
        List [SymbolSyntax "display"; StringSyntax "a"];
        List [SymbolSyntax "display"; StringSyntax "b"]].

(** [(list (display "a") (display "b"))] *)
Definition display_list : Syntax :=
  List [SymbolSyntax "list";
        List [SymbolSyntax "display"; StringSyntax "a"];
        List [SymbolSyntax "display"; StringSyntax "b"]].

(** [(begin (define f (let ((x 1)) (lambda () x))) (define x 2) (f))] *)
Definition scoping_program : Syntax :=
  List [SymbolSyntax "begin";
        List [SymbolSyntax "define"; SymbolSyntax "f";
              List [SymbolSyntax "let";
                    List [List [SymbolSyntax "x"; Number 1]];
                    List [SymbolSyntax "lambda"; List []; SymbolSyntax "x"]]];
        List [SymbolSyntax "define"; SymbolSyntax "x"; Number 2];
        List [SymbolSyntax "f"]].

(** The same with [(define x 0)] in front, so that the later [define]
    overwrites an existing cell. *)
Definition scoping_program_redefined : Syntax :=
  List [SymbolSyntax "begin";
        List [SymbolSyntax "define"; SymbolSyntax "x"; Number 0];
        List [SymbolSyntax "define"; SymbolSyntax "f";
              List [SymbolSyntax "let";
                    List [List [SymbolSyntax "x"; Number 1]];
                    List [SymbolSyntax "lambda"; List []; SymbolSyntax "x"]]];
        List [SymbolSyntax "define"; SymbolSyntax "x"; Number 2];
        List [SymbolSyntax "f"]].




(** The factorial of 5 by [letrec]: [f] is bound to a [lambda] over [n] that
    answers 1 when [(= n 0)] and the product of [n] and [(f (- n 1))]
    otherwise; the body is [(f 5)]. *)
Definition factorial_form : Syntax :=
  List [SymbolSyntax "letrec";
        List [List [SymbolSyntax "f";
                    List [SymbolSyntax "lambda"; List [SymbolSyntax "n"];
                          List [SymbolSyntax "if";
                                List [SymbolSyntax "="; SymbolSyntax "n"; Number 0];
                                Number 1;
                                List [SymbolSyntax "*"; SymbolSyntax "n";
                                      List [SymbolSyntax "f";
                                            List [SymbolSyntax "-"; SymbolSyntax "n";
                                                  Number 1]]]]]]];
        List [SymbolSyntax "f"; Number 5]].

(** What the parser makes of [factorial_form]: it has no case for the
    primitive [=], and the test becomes the application of a variable. *)
Definition factorial_parsed : Expr :=
  Letrec [("f", Lambda ["n"]
                  (If (Apply (Var "=") [Var "n"; Fixnum 0])
                      (Fixnum 1)
                      (Binary Mult (Var "n")
                         (Apply (Var "f") [Binary Minus (Var "n") (Fixnum 1)]))))]
         (Apply (Var "f") [Fixnum 5]).

(** The tree with the comparison node in the place of that application. *)
Definition factorial_with_Equal : Expr :=
  Letrec [("f", Lambda ["n"]
                  (If (Binary Equal (Var "n") (Fixnum 0))
                      (Fixnum 1)
                      (Binary Mult (Var "n")
                         (Apply (Var "f") [Binary Minus (Var "n") (Fixnum 1)]))))]
         (Apply (Var "f") [Fixnum 5]).

(** Two numbers, and two pairs with equal contents, in a store. *)
Definition two_numbers : State :=
  mkState [Rational 1 2; Integer 3] [] [].

Definition two_pairs : State :=
  mkState [Pair None None; Pair None None] [] [].

(** ** Further predicates *)

(** [keeps st st']: what an evaluation leaves in place.  Every object of [st]
    is still there in [st'] with the same type tag, and is the same object
    unless it is a pair; no cell and no output is lost. *)
Definition keeps (st st' : State) : Prop :=
  (forall p o, heap st !! p = Some o ->
     exists o', heap st' !! p = Some o' /\ v_type o' = v_type o
                /\ (v_type o <> V_PAIR -> o' = o))
  /\ (length (cells st) <= length (cells st'))%nat
  /\ (exists more, out st' = out st ++ more).

(** A computation is [steady] when the store it ends in, by a value or by a
    [RuntimeError], keeps the store it started from. *)
Definition steady {A} (m : M A) : Prop :=
  forall st,
    match m st with
    | Ok _ st' => keeps st st'
    | Throw _ st' => keeps st st'
    | _ => True
    end.

(** [+], [-] and [*]. *)
Definition additive_or_product (op : BinaryOp) : bool :=
  match op with
  | Plus | Minus | Mult => true
  | _ => false
  end.

(** The sign of a comparison, as the comparator reports it. *)
Definition sign_of (c : comparison) : Z :=
  match c with
  | Lt => -1
  | Eq => 0
  | Gt => 1
  end.

(** [represents st v s]: the value [v] of the store [st] is the datum the
    syntax tree [s] denotes; a list is a chain of pairs that ends in null. *)
Inductive represents (st : State) : Value -> Syntax -> Prop :=
| represents_number p n :
    heap st !! p = Some (Integer n) -> represents st (Some p) (Number n)
| represents_rational p num den :
    heap st !! p = Some (Rational num den) ->
    represents st (Some p) (RationalSyntax num den)
| represents_true p :
    heap st !! p = Some (Boolean true) -> represents st (Some p) TrueSyntax
| represents_false p :
    heap st !! p = Some (Boolean false) -> represents st (Some p) FalseSyntax
| represents_string p s :
    heap st !! p = Some (StringO s) -> represents st (Some p) (StringSyntax s)
| represents_symbol p s :
    heap st !! p = Some (Symbol s) -> represents st (Some p) (SymbolSyntax s)
| represents_null p :
    heap st !! p = Some Null -> represents st (Some p) (List [])
| represents_pair p a d x rest :
    heap st !! p = Some (Pair a d) ->
    represents st a x -> represents st d (List rest) ->
    represents st (Some p) (List (x :: rest)).

(** [proper_list st v vs]: [v] is a chain of pairs whose [car] fields are
    [vs], in order, and whose last [cdr] is a null object. *)
Inductive proper_list (st : State) : Value -> list Value -> Prop :=
| proper_null p :
    heap st !! p = Some Null -> proper_list st (Some p) []
| proper_pair p a d rest :
    heap st !! p = Some (Pair a d) -> proper_list st d rest ->
    proper_list st (Some p) (a :: rest).

(** The addresses of the pairs of such a chain. *)
Inductive pair_cells (st : State) : Value -> list nat -> Prop :=
| pair_cells_null p :
    heap st !! p = Some Null -> pair_cells st (Some p) []
| pair_cells_pair p a d ps :
    heap st !! p = Some (Pair a d) -> pair_cells st d ps ->
    pair_cells st (Some p) (p :: ps).

(** [run_of ev want rands last e st last' e' st']: the operands [rands] are
    evaluated one after the other, from [e] and [st] to [e'] and [st'], each
    to a value that exists and that is falsy when [want] is true, truthy when
    it is false; [last'] is the value of the last one ([last] if there is
    none).  With [want = false] this is an [and] that goes on, with
    [want = true] an [or] that goes on. *)
Inductive run_of (ev : Expr -> Assoc -> M (Value * Assoc)) (want : bool) :
    list Expr -> Value -> Assoc -> State -> Value -> Assoc -> State -> Prop :=
| run_of_nil last e st : run_of ev want [] last e st last e st
| run_of_cons x rest last e st v e1 st1 o last' e' st' :
    ev x e st = Ok (v, e1) st1 ->
    deref v st1 = Some o -> is_false o = want ->
    run_of ev want rest v e1 st1 last' e' st' ->
    run_of ev want (x :: rest) last e st last' e' st'.

(** The two-operand primitives [List::parse] has a case for. *)
Definition parsed_binary (op : BinaryOp) : bool :=
  match op with
  | Plus | Minus | Mult | Div | Modulo | Cons | SetCar | SetCdr | IsEq => true
  | _ => false
  end.

(** The expression trees in the range of the parser: no [and] or [or] node,
    no ordering, [expt], [void] or [exit] node, no variadic node other than
    [list], and no empty [cond] clause, at any depth. *)
Fixpoint parser_made (ex : Expr) : bool :=
  match ex with
  | Fixnum _ | RationalNum _ _ | StringExpr _ | ETrue | EFalse | Var _
  | Quote _ => true
  | MakeVoid | Exit | AndVar _ | OrVar _ => false
  | Unary _ rand => parser_made rand
  | Binary op rand1 rand2 =>
      parsed_binary op && parser_made rand1 && parser_made rand2
  | Variadic op rands =>
      match op with
      | ListFunc => forallb parser_made rands
      | _ => false
      end
  | Begin es => forallb parser_made es
  | If c t a => parser_made c && parser_made t && parser_made a
  | Cond clauses =>
      forallb (fun clause =>
                 match clause with
                 | [] => false
                 | _ => forallb parser_made clause
                 end) clauses
  | Lambda _ body => parser_made body
  | Apply rator rands => parser_made rator && forallb parser_made rands
  | Define _ rhs | SetE _ rhs => parser_made rhs
  | Let bs body | Letrec bs body =>
      forallb (fun b => match b with (_, rhs) => parser_made rhs end) bs
      && parser_made body
  end.

(** The right-hand sides of a [let], one after the other: each is evaluated
    in the environment the caller holds, as the right-hand sides before it
    left it, and a new cell then takes its value.  [vals] are the values and
    [cs] the new cells, in the order of the bindings. *)
Inductive Let_rhs (ev : Expr -> Assoc -> M (Value * Assoc)) :
    list (string * Expr) -> Assoc -> State ->
    list Value -> list nat -> Assoc -> State -> Prop :=
| Let_rhs_nil env st : Let_rhs ev [] env st [] [] env st
| Let_rhs_cons x rhs rest env st v env1 st1 vals cs env' st' :
    ev rhs env st = Ok (v, env1) st1 ->
    Let_rhs ev rest env1 (mkState (heap st1) (cells st1 ++ [v]) (out st1))
            vals cs env' st' ->
    Let_rhs ev ((x, rhs) :: rest) env st
            (v :: vals) (length (cells st1) :: cs) env' st'.

(** The number of nodes of a syntax tree. *)
Fixpoint size (s : Syntax) : nat :=
  match s with
  | List stxs => S (list_sum (map size stxs))
  | _ => 1
  end.

(** * Properties *)

(** ** The store *)

Lemma deref_new_value (o : ValueBase) (st : State) :
  new_value o st =
    Ok (Some (length (heap st))) (mkState (heap st ++ [o]) (cells st) (out st))
  /\ deref (Some (length (heap st)))
           (mkState (heap st ++ [o]) (cells st) (out st)) = Some o.
Proof.
  split; [reflexivity|]. unfold deref; cbn [heap].
  apply list_lookup_middle. reflexivity.
Qed.

Lemma deref_grow (v : Value) (o : ValueBase) (st : State) (more : list ValueBase)
    (cs : list Value) (os : list Output) :
  deref v st = Some o -> deref v (mkState (heap st ++ more) cs os) = Some o.
Proof.
  destruct v as [p|]; [|discriminate]. unfold deref; cbn [heap].
  intros H. apply lookup_app_l_Some. exact H.
Qed.

Lemma obj_deref (v : Value) (o : ValueBase) (st : State) :
  deref v st = Some o -> obj v st = Ok o st.
Proof. intros H. unfold obj. rewrite H. reflexivity. Qed.

(** ** More fuel never changes a finished evaluation *)

Lemma below_refl {A} (m : M A) : below m m.
Proof. intros st. right. reflexivity. Qed.

Lemma below_bind {A B} (m m' : M A) (k k' : A -> M B) :
  below m m' -> (forall a, below (k a) (k' a)) ->
  below (bind m k) (bind m' k').
Proof.
  intros Hm Hk st. unfold bind.
  destruct (Hm st) as [E | E]; rewrite E; [left; reflexivity|].
  destruct (m st); auto. apply Hk.
Qed.

Ltac below_auto :=
  repeat first
    [ apply below_refl
    | assumption
    | match goal with H : context [below] |- _ => apply H end
    | apply below_bind; [| intros ?]
    | match goal with
      | |- below (match ?x with _ => _ end) _ => destruct x
      end ].

Section Monotone.
Variables ev ev' : Expr -> Assoc -> M (Value * Assoc).
Hypothesis ev_below : forall ex e, below (ev ex e) (ev' ex e).

Lemma eval_rands_below rands e :
  below (eval_rands ev rands e) (eval_rands ev' rands e).
Proof.
  revert e. induction rands as [|ex rest IH]; intros e; cbn [eval_rands];
    below_auto.
Qed.

Lemma Begin_loop_below es last e :
  below (Begin_loop ev es last e) (Begin_loop ev' es last e).
Proof.
  revert last e. induction es as [|ex rest IH]; intros last e;
    cbn [Begin_loop]; below_auto.
Qed.

Lemma AndVar_loop_below rands last e :
  below (AndVar_loop ev rands last e) (AndVar_loop ev' rands last e).
Proof.
  revert last e. induction rands as [|ex rest IH]; intros last e;
    cbn [AndVar_loop]; below_auto.
Qed.

Lemma OrVar_loop_below rands last e :
  below (OrVar_loop ev rands last e) (OrVar_loop ev' rands last e).
Proof.
  revert last e. induction rands as [|ex rest IH]; intros last e;
    cbn [OrVar_loop]; below_auto.
Qed.

Lemma Let_loop_below bind env local :
  below (Let_loop ev bind env local) (Let_loop ev' bind env local).
Proof.
  revert env local. induction bind as [|[x rhs] rest IH]; intros env local;
    cbn [Let_loop]; below_auto.
Qed.

Lemma Letrec_vals_below bind env1 :
  below (Letrec_vals ev bind env1) (Letrec_vals ev' bind env1).
Proof.
  revert env1. induction bind as [|[x rhs] rest IH]; intros env1;
    cbn [Letrec_vals]; below_auto.
Qed.

Lemma Binary_rands_below order rand1 rand2 e :
  below (Binary_rands order ev rand1 rand2 e)
        (Binary_rands order ev' rand1 rand2 e).
Proof. unfold Binary_rands. destruct order; below_auto. Qed.

Lemma eval_node_below prims order ex e :
  below (eval_node prims order ev ex e) (eval_node prims order ev' ex e).
Proof.
  destruct ex; cbn [eval_node];
    repeat first
      [ apply below_refl
      | apply ev_below
      | apply eval_rands_below
      | apply Begin_loop_below
      | apply AndVar_loop_below
      | apply OrVar_loop_below
      | apply Let_loop_below
      | apply Letrec_vals_below
      | apply Binary_rands_below
      | apply below_bind; [| intros ?]
      | match goal with
        | |- below (match ?x with _ => _ end) _ => destruct x
        end ].
Qed.
End Monotone.

Lemma eval_below prims order n :
  forall ex e, below (eval prims order n ex e) (eval prims order (S n) ex e).
Proof.
  induction n as [|n IH]; intros ex e.
  - intros st. left. reflexivity.
  - change (below (eval_node prims order (eval prims order n) ex e)
                  (eval_node prims order (eval prims order (S n)) ex e)).
    apply eval_node_below. exact IH.
Qed.

(** Fuel monotonicity: an evaluation that finished with [n] units finishes in
    the same way with any larger budget. *)
Lemma eval_more_fuel prims order n k ex e st :
  eval prims order n ex e st <> OutOfFuel ->
  eval prims order (n + k) ex e st = eval prims order n ex e st.
Proof.
  intros Hfin. induction k as [|k IH].
  - rewrite Nat.add_0_r. reflexivity.
  - rewrite Nat.add_succ_r.
    destruct (eval_below prims order (n + k) ex e st) as [E | E].
    + rewrite IH in E. contradiction.
    + rewrite E. exact IH.
Qed.

Lemma run_more_fuel order n k s e st :
  run order n s e st <> OutOfFuel ->
  run order (n + k) s e st = run order n s e st.
Proof.
  unfold run. destruct (parse _ _ _ _ _ _); [|reflexivity].
  apply eval_more_fuel.
Qed.

(** ** The empty list *)

(** C10: the empty list syntax node parses, without error, into the quotation
    of an empty list, and evaluating that quotation creates the null value. *)
Theorem empty_list_parses_to_quoted_null
    (prims rw : gmap string ExprType) (order : bool) (st : State) (env : Assoc)
    (n : nat) (e : Assoc) (st' : State) :
  parse prims rw order st env (List []) = Parsed (Quote (List []))
  /\ eval prims order (S n) (Quote (List [])) e st' =
       Ok (Some (length (heap st')), e)
          (mkState (heap st' ++ [Null]) (cells st') (out st'))
  /\ answer (eval prims order (S n) (Quote (List [])) e st') = Some Null.
Proof.
  split; [reflexivity|]. split; [reflexivity|].
  cbn [eval eval_node Quote_eval]. unfold NullV, bind, ret, answer.
  destruct (deref_new_value Null st') as [-> H]. exact H.
Qed.

(** ** Variable references *)

Lemma Var_eval_bound prims order n x e st p :
  find x e st = Some p ->
  eval prims order (S n) (Var x) e st = Ok (Some p, e) st.
Proof.
  intros H. cbn [eval eval_node]. unfold bind, Var_eval. rewrite H. reflexivity.
Qed.

Lemma Var_eval_primitive prims order n x e st t body ps :
  find x e st = None -> prims !! x = Some t ->
  primitive_map t = Some (body, ps) ->
  eval prims order (S n) (Var x) e st =
    Ok (Some (length (heap st)), e)
       (mkState (heap st ++ [Procedure ps body e]) (cells st) (out st)).
Proof.
  intros H Hp Hm. cbn [eval eval_node]. unfold bind, Var_eval.
  rewrite H, Hp, Hm. reflexivity.
Qed.

(** A primitive name whose tag [primitive_map] does not list is answered like
    an unbound name. *)
Lemma Var_eval_unlisted_primitive prims order n x e st t :
  find x e st = None -> prims !! x = Some t -> primitive_map t = None ->
  eval prims order (S n) (Var x) e st = Ok (None, e) st.
Proof.
  intros H Hp Hm. cbn [eval eval_node]. unfold bind, Var_eval.
  rewrite H, Hp, Hm. reflexivity.
Qed.

Example Var_eval_car_is_null (order : bool) :
  eval primitives order 1 (Var "car") empty initial = Ok (None, empty) initial.
Proof. destruct order; vm_compute; reflexivity. Qed.

(** C4: a name that is neither bound in the environment nor a primitive does
    not raise a [RuntimeError]: [Var::eval] falls through to
    [return matched_value] and answers the null handle, with the store
    unchanged. *)
Theorem Var_eval_unbound_answers_null
    (prims : gmap string ExprType) (order : bool) (n : nat) (x : string)
    (e : Assoc) (st : State) :
  find x e st = None -> prims !! x = None ->
  eval prims order (S n) (Var x) e st = Ok (None, e) st.
Proof.
  intros H Hp. cbn [eval eval_node]. unfold bind, Var_eval.
  rewrite H, Hp. reflexivity.
Qed.

Lemma Var_eval_unbound_answers_null_witness :
  find "y" empty initial = None /\ primitives !! "y" = None
  /\ eval primitives true 1 (Var "y") empty initial = Ok (None, empty) initial.
Proof.
  split; [reflexivity|]. split; [vm_compute; reflexivity|].
  apply (Var_eval_unbound_answers_null primitives true 0 "y" empty initial).
  - reflexivity.
  - vm_compute; reflexivity.
Defined.

(** ** Unfinished node kinds *)

(** C5: [Cond::eval] has no body beyond a TODO comment.  Whatever the clauses,
    evaluating a [cond] node reaches the end of the function without a value;
    so does [(cond (#t 1))], which the parser turns into such a node. *)
Theorem Cond_eval_returns_nothing :
  (forall (prims : gmap string ExprType) (order : bool) (n : nat)
          (clauses : list (list Expr)) (e : Assoc) (st : State),
      eval prims order (S n) (Cond clauses) e st = Undefined)
  /\ (forall order : bool,
        parse primitives reserved_words order initial empty cond_example =
          Parsed (Cond [[ETrue; Fixnum 1]]))
  /\ (forall (order : bool) (n : nat),
        run order (S n) cond_example empty initial = Undefined).
Proof.
  split; [reflexivity|]. split.
  - intros []; vm_compute; reflexivity.
  - intros order n. unfold run.
    replace (parse primitives reserved_words order initial empty cond_example)
      with (Parsed (Cond [[ETrue; Fixnum 1]]))
      by (destruct order; vm_compute; reflexivity).
    reflexivity.
Qed.

(** C6: the variadic ordering primitives have no body beyond a TODO comment:
    on every argument vector each of them ends without a value.  The parser
    has no case for an ordering primitive either: [(< 1 2 3)] becomes the
    application of the variable [<], which [Var::eval] answers with the null
    handle, and [Apply::eval] dereferences it. *)
Theorem ordering_variadic_returns_nothing :
  (forall (args : list Value) (st : State),
      Variadic_evalRator LessVar args st = Undefined
      /\ Variadic_evalRator LessEqVar args st = Undefined
      /\ Variadic_evalRator EqualVar args st = Undefined
      /\ Variadic_evalRator GreaterEqVar args st = Undefined
      /\ Variadic_evalRator GreaterVar args st = Undefined)
  /\ (forall order : bool,
        parse primitives reserved_words order initial empty less_example =
          Parsed (Apply (Var "<") [Fixnum 1; Fixnum 2; Fixnum 3]))
  /\ (forall (order : bool) (n : nat),
        run order (S (S n)) less_example empty initial = Undefined).
Proof.
  split; [intros; repeat split|]. split.
  - intros []; vm_compute; reflexivity.
  - intros order n.
    assert (H : run order 2 less_example empty initial = Undefined)
      by (destruct order; vm_compute; reflexivity).
    change (S (S n)) with (2 + n)%nat. rewrite run_more_fuel; rewrite H; congruence.
Qed.

(** ** 32-bit arithmetic *)

Lemma wrap32_fits (z : Z) : fits_int z = true -> wrap32 z = z.
Proof.
  unfold fits_int, INT_MIN, INT_MAX, wrap32. intros H.
  apply andb_true_iff in H as [H1 H2].
  apply Z.leb_le in H1. apply Z.leb_le in H2.
  rewrite Z.mod_small; lia.
Qed.

(** ** Comparison *)

Lemma truth_BooleanV (b : bool) (st : State) : truth (BooleanV b st) = Some b.
Proof.
  unfold truth, BooleanV.
  destruct (deref_new_value (Boolean b) st) as [-> ->]. reflexivity.
Qed.

Lemma three_way_range (l r : Z) :
  three_way l r = -1 \/ three_way l r = 0 \/ three_way l r = 1.
Proof. unfold three_way. destruct (l <? r), (l >? r); auto. Qed.

Lemma three_way_exactly_one (l r : Z) :
  exactly_one (three_way l r <? 0) (three_way l r =? 0) (three_way l r >? 0) = true.
Proof. unfold three_way. destruct (l <? r), (l >? r); reflexivity. Qed.

(** What the three tests of the wrappers read off a [three_way] answer. *)
Lemma three_way_tests (l r : Z) :
  (three_way l r <? 0) = (l <? r)
  /\ (three_way l r =? 0) = (l =? r)
  /\ (three_way l r >? 0) = (l >? r).
Proof.
  unfold three_way, Z.gtb.
  destruct (Z.ltb_spec l r) as [H | H].
  - assert (E : (l ?= r) = Lt) by (apply Z.compare_lt_iff; exact H).
    destruct (Z.eqb_spec l r) as [E' | _]; [lia|]. rewrite E. repeat split.
  - destruct (l ?= r) eqn:E.
    + apply Z.compare_eq_iff in E. rewrite (proj2 (Z.eqb_eq l r) E). repeat split.
    + change (l < r) in E. lia.
    + destruct (Z.eqb_spec l r) as [E' | _]; [|repeat split].
      subst r. rewrite Z.compare_refl in E. discriminate E.
Qed.

(** On two numbers the comparator finishes, leaves the store alone, and
    compares the two cross products [n1 * d2] and [n2 * d1], taken in 32-bit
    arithmetic (an integer [n] counting as [n/1]). *)
Lemma compareNumericValues_cross a b st oa ob n1 d1 n2 d2 :
  deref a st = Some oa -> deref b st = Some ob ->
  num_den oa = Some (n1, d1) -> num_den ob = Some (n2, d2) ->
  fits_int n1 = true -> fits_int n2 = true ->
  compareNumericValues a b st =
    Ok (three_way (wrap32 (n1 * d2)) (wrap32 (n2 * d1))) st.
Proof.
  intros Ha Hb Hna Hnb F1 F2.
  unfold compareNumericValues, bind. rewrite (obj_deref _ _ _ Ha).
  destruct oa; try discriminate Hna; injection Hna as <- <-;
    rewrite (obj_deref _ _ _ Hb);
    destruct ob; try discriminate Hnb; injection Hnb as <- <-;
    unfold ret, int_mul;
    rewrite ?Z.mul_1_r, ?(wrap32_fits _ F1), ?(wrap32_fits _ F2);
    reflexivity.
Qed.

Lemma ordering_wrappers a b st c :
  compareNumericValues a b st = Ok c st ->
  truth (Less_evalRator a b st) = Some (c <? 0)
  /\ truth (LessEq_evalRator a b st) = Some (c <=? 0)
  /\ truth (Equal_evalRator a b st) = Some (c =? 0)
  /\ truth (GreaterEq_evalRator a b st) = Some (c >=? 0)
  /\ truth (Greater_evalRator a b st) = Some (c >? 0).
Proof.
  intros H.
  unfold Less_evalRator, LessEq_evalRator, Equal_evalRator,
    GreaterEq_evalRator, Greater_evalRator, bind.
  rewrite H. repeat split; apply truth_BooleanV.
Qed.

(** The parser has no case for an ordering primitive: the form is read as the
    application of the variable, whatever the two operands parse to. *)
Lemma ordering_form_parse (op : string) (sa sb : Syntax) (ea eb : Expr)
    (order : bool) (e : Assoc) (st : State) :
  In op ["<"; "="; ">"] -> find op e st = None ->
  parse primitives reserved_words order st e sa = Parsed ea ->
  parse primitives reserved_words order st e sb = Parsed eb ->
  parse primitives reserved_words order st e (List [SymbolSyntax op; sa; sb]) =
    Parsed (Apply (Var op) [ea; eb]).
Proof.
  intros Hop Hf Ha Hb.
  assert (Ht : exists t, primitives !! op = Some t
                         /\ parse_primitive op t [ea; eb] =
                              Parsed (Apply (Var op) [ea; eb])).
  { destruct Hop as [<- | [<- | [<- | []]]];
      eexists; (split; [vm_compute; reflexivity | reflexivity]). }
  destruct Ht as (t & Hp & Hpp).
  cbn [parse]. cbv zeta. rewrite Hf, Hp, Ha, Hb. exact Hpp.
Qed.

(** The table inside [Var::eval] lists no ordering primitive. *)
Lemma ordering_names_unlisted (op : string) :
  In op ["<"; "="; ">"] ->
  exists t, primitives !! op = Some t /\ primitive_map t = None.
Proof.
  intros [<- | [<- | [<- | []]]];
    eexists; (split; [vm_compute; reflexivity | reflexivity]).
Qed.

(** C7: on two numbers held as values, the shared comparator compares the
    cross products [n1 * d2] and [n2 * d1] and answers -1, 0 or 1; [<], [=]
    and [>] answer the three tests of that comparison, and exactly one of
    them is true.  The forms [(< a b)], [(= a b)] and [(> a b)] never get
    there: the parser has no case for them and reads the application of the
    variable, which [Var::eval] answers with the null handle, and
    [Apply::eval] dereferences it.  None of the three forms has a value. *)
Theorem ordering_forms_have_no_value :
  (forall (a b : Value) (st : State) (oa ob : ValueBase) (n1 d1 n2 d2 : Z),
      deref a st = Some oa -> deref b st = Some ob ->
      num_den oa = Some (n1, d1) -> num_den ob = Some (n2, d2) ->
      fits_int n1 = true -> fits_int n2 = true ->
      let l := wrap32 (n1 * d2) in
      let r := wrap32 (n2 * d1) in
      compareNumericValues a b st = Ok (three_way l r) st
      /\ (three_way l r = -1 \/ three_way l r = 0 \/ three_way l r = 1)
      /\ truth (Less_evalRator a b st) = Some (l <? r)
      /\ truth (Equal_evalRator a b st) = Some (l =? r)
      /\ truth (Greater_evalRator a b st) = Some (l >? r)
      /\ exactly_one (l <? r) (l =? r) (l >? r) = true)
  /\ (forall (op : string) (sa sb : Syntax) (ea eb : Expr)
             (order : bool) (n : nat) (e : Assoc) (st : State),
        In op ["<"; "="; ">"] -> find op e st = None ->
        parse primitives reserved_words order st e sa = Parsed ea ->
        parse primitives reserved_words order st e sb = Parsed eb ->
        parse primitives reserved_words order st e (List [SymbolSyntax op; sa; sb]) =
          Parsed (Apply (Var op) [ea; eb])
        /\ run order (S (S n)) (List [SymbolSyntax op; sa; sb]) e st = Undefined).
Proof.
  split.
  - intros a b st oa ob n1 d1 n2 d2 Ha Hb Hna Hnb F1 F2 l r.
    pose proof (compareNumericValues_cross a b st oa ob n1 d1 n2 d2
                  Ha Hb Hna Hnb F1 F2) as Hc.
    fold l r in Hc.
    destruct (ordering_wrappers a b st _ Hc) as (Hlt & _ & Heq & _ & Hgt).
    destruct (three_way_tests l r) as (T1 & T2 & T3).
    rewrite T1 in Hlt. rewrite T2 in Heq. rewrite T3 in Hgt.
    split; [exact Hc|]. split; [apply three_way_range|].
    split; [exact Hlt|]. split; [exact Heq|]. split; [exact Hgt|].
    rewrite <- T1, <- T2, <- T3. apply three_way_exactly_one.
  - intros op sa sb ea eb order n e st Hop Hf Ha Hb.
    pose proof (ordering_form_parse op sa sb ea eb order e st Hop Hf Ha Hb) as Hp.
    split; [exact Hp|].
    destruct (ordering_names_unlisted op Hop) as (t & Ht & Hm).
    unfold run. rewrite Hp.
    change (eval primitives order (S (S n)) (Apply (Var op) [ea; eb]) e st)
      with (eval_node primitives order (eval primitives order (S n))
              (Apply (Var op) [ea; eb]) e st).
    cbn [eval_node]. unfold bind at 1.
    rewrite (Var_eval_unlisted_primitive primitives order n op e st t Hf Ht Hm).
    reflexivity.
Qed.

Lemma ordering_forms_have_no_value_witness :
  (deref (Some 0%nat) two_numbers = Some (Rational 1 2)
   /\ deref (Some 1%nat) two_numbers = Some (Integer 3)
   /\ truth (Less_evalRator (Some 0%nat) (Some 1%nat) two_numbers) = Some true
   /\ truth (Equal_evalRator (Some 0%nat) (Some 1%nat) two_numbers) = Some false
   /\ truth (Greater_evalRator (Some 0%nat) (Some 1%nat) two_numbers) = Some false)
  /\ (In "<" ["<"; "="; ">"] /\ find "<" empty initial = None
      /\ run true 2 (List [SymbolSyntax "<"; Number 1; Number 2]) empty initial
         = Undefined).
Proof.
  destruct ordering_forms_have_no_value as [Hvalues Hforms].
  split.
  - split; [reflexivity|]. split; [reflexivity|].
    destruct (Hvalues (Some 0%nat) (Some 1%nat) two_numbers
                (Rational 1 2) (Integer 3) 1 2 3 1
                eq_refl eq_refl eq_refl eq_refl eq_refl eq_refl)
      as (_ & _ & Hlt & Heq & Hgt & _).
    split; [exact Hlt|]. split; [exact Heq | exact Hgt].
  - split; [left; reflexivity|]. split; [reflexivity|].
    destruct (Hforms "<" (Number 1) (Number 2) (Fixnum 1) (Fixnum 2) true 0%nat
                empty initial (or_introl eq_refl) eq_refl eq_refl eq_refl)
      as [_ H].
    exact H.
Defined.

(** ** Identity *)

Lemma IsEq_evalRator_answer a b st oa ob :
  deref a st = Some oa -> deref b st = Some ob ->
  truth (IsEq_evalRator a b st) =
    Some match oa, ob with
         | Integer n1, Integer n2 => n1 =? n2
         | Boolean b1, Boolean b2 => Bool.eqb b1 b2
         | Symbol s1, Symbol s2 => String.eqb s1 s2
         | Null, Null | Void, Void => true
         | _, _ => same_pointer a b
         end.
Proof.
  intros Ha Hb. unfold IsEq_evalRator, bind.
  rewrite (obj_deref _ _ _ Ha).
  destruct oa; try apply truth_BooleanV;
    rewrite (obj_deref _ _ _ Hb); destruct ob; apply truth_BooleanV.
Qed.

(** C9: [eq?] answers true for two nulls and for two voids whatever the
    pointers; it compares two integers, two booleans and two symbols by their
    contents; every other pair of values is compared by pointer, so that two
    values of different kinds, being distinct objects, are never [eq?]. *)
Theorem IsEq_evalRator_cases (a b : Value) (st : State) (oa ob : ValueBase) :
  deref a st = Some oa -> deref b st = Some ob ->
  exists r : bool,
    truth (IsEq_evalRator a b st) = Some r
    /\ (oa = Null -> ob = Null -> r = true)
    /\ (oa = Void -> ob = Void -> r = true)
    /\ (forall n1 n2, oa = Integer n1 -> ob = Integer n2 -> r = (n1 =? n2))
    /\ (forall b1 b2, oa = Boolean b1 -> ob = Boolean b2 -> r = Bool.eqb b1 b2)
    /\ (forall s1 s2, oa = Symbol s1 -> ob = Symbol s2 -> r = String.eqb s1 s2)
    /\ (compared_by_content oa ob = false -> r = bool_decide (a = b))
    /\ (v_type oa <> v_type ob -> r = false).
Proof.
  intros Ha Hb. eexists. split; [apply IsEq_evalRator_answer; eassumption|].
  repeat split.
  - intros -> ->. reflexivity.
  - intros -> ->. reflexivity.
  - intros n1 n2 -> ->. reflexivity.
  - intros b1 b2 -> ->. reflexivity.
  - intros s1 s2 -> ->. reflexivity.
  - destruct oa, ob; try discriminate; reflexivity.
  - intros Hk.
    assert (Hne : a <> b).
    { intros ->. rewrite Ha in Hb. injection Hb as ->. contradiction. }
    destruct oa, ob; try (exfalso; apply Hk; reflexivity);
      unfold same_pointer; apply bool_decide_eq_false; exact Hne.
Qed.

Lemma IsEq_evalRator_cases_witness :
  deref (Some 0%nat) two_pairs = Some (Pair None None)
  /\ deref (Some 1%nat) two_pairs = Some (Pair None None)
  /\ truth (IsEq_evalRator (Some 0%nat) (Some 1%nat) two_pairs) = Some false.
Proof.
  split; [reflexivity|]. split; [reflexivity|].
  destruct (IsEq_evalRator_cases (Some 0%nat) (Some 1%nat) two_pairs
              (Pair None None) (Pair None None) eq_refl eq_refl)
    as (r & Hr & _ & _ & _ & _ & _ & Hptr & _).
  rewrite Hr. rewrite (Hptr eq_refl). reflexivity.
Defined.

(** ** Order of operand evaluation *)

(** The operand loop of [Variadic::eval] and [Apply::eval] goes through the
    operands from left to right. *)
Lemma eval_rands_app ev (l1 l2 : list Expr) (e : Assoc) (st : State) :
  eval_rands ev (l1 ++ l2) e st =
    (let* (vals1, e1) := eval_rands ev l1 e in
     let* (vals2, e2) := eval_rands ev l2 e1 in
     ret (vals1 ++ vals2, e2)) st.
Proof.
  revert e st. induction l1 as [|ex rest IH]; intros e st;
    cbn [eval_rands app]; unfold bind, ret.
  - destruct (eval_rands ev l2 e st) as [[vals2 e2] st'| | |]; reflexivity.
  - destruct (ev ex e st) as [[v e1] st1| | |]; try reflexivity.
    rewrite IH. unfold bind, ret.
    destruct (eval_rands ev rest e1 st1) as [[vals1 e1'] st1'| | |];
      try reflexivity.
    destruct (eval_rands ev l2 e1' st1') as [[vals2 e2] st2| | |]; reflexivity.
Qed.

Example display_list_in_order (order : bool) (k : nat) :
  printed (run order (3 + k) display_list empty initial) = [Wrote "a"; Wrote "b"].
Proof.
  rewrite run_more_fuel; destruct order; vm_compute; congruence.
Qed.

(** C8: [Binary::eval] passes [rand1->eval (e)] and [rand2->eval (e)] as the
    two arguments of one call, so the compiler decides which operand runs
    first.  Where it evaluates call arguments from the last to the first,
    [(cons (display "a") (display "b"))] writes b before a; where it goes from
    the first to the last, a comes before b. *)
Theorem Binary_eval_order_is_the_compilers (k : nat) :
  printed (run false (3 + k) display_pair empty initial) = [Wrote "b"; Wrote "a"]
  /\ printed (run true (3 + k) display_pair empty initial) = [Wrote "a"; Wrote "b"].
Proof.
  split; rewrite run_more_fuel; vm_compute; congruence.
Qed.

(** ** The cells of an environment *)

Lemma find_via_cell (x : string) (env : Assoc) (st : State) :
  find x env st =
    match modify_cell x env with
    | Some c => default None (cells st !! c)
    | None => None
    end.
Proof.
  induction env as [|[y c] env IH]; [reflexivity|].
  cbn [find modify_cell]. destruct (String.eqb x y); [reflexivity | exact IH].
Qed.






(** ** Closures and their environments *)

Lemma bind_parameters_spec (ps : list string) :
  forall (args : list Value) (env : Assoc) (st : State),
    length args = length ps ->
    bind_parameters ps args env st =
      Ok (rev (combine ps (seq (length (cells st)) (length ps))) ++ env)
         (mkState (heap st) (cells st ++ args) (out st)).
Proof.
  induction ps as [|p ps IH]; intros args env st Hlen.
  - destruct args; [|discriminate Hlen]. destruct st as [h c o].
    cbn. rewrite app_nil_r. reflexivity.
  - destruct args as [|a args]; [discriminate Hlen|].
    injection Hlen as Hlen. cbn [bind_parameters]. unfold bind, extend.
    rewrite (IH args _ _ Hlen). cbn [heap cells out].
    rewrite length_app, Nat.add_1_r. cbn [length seq combine rev].
    rewrite <- !app_assoc. reflexivity.
Qed.

Example scoping_program_parsed (order : bool) :
  parse primitives reserved_words order initial empty scoping_program =
    Parsed (Begin [Define "f" (Let [("x", Fixnum 1)] (Lambda [] (Var "x")));
                   Define "x" (Fixnum 2);
                   Apply (Var "f") []]).
Proof. destruct order; vm_compute; reflexivity. Qed.



(** The same when the enclosing [x] exists beforehand and [define] overwrites
    it in place. *)
Example scoping_program_redefined_answer (order : bool) (k : nat) :
  answer (run order (4 + k) scoping_program_redefined empty initial) =
    Some (Integer 1).
Proof. rewrite run_more_fuel; destruct order; vm_compute; congruence. Qed.

(** ** letrec *)

(** The [letrec] mechanism by itself: placeholder, closure over the extended
    environment, assignment in place, body. *)
Lemma factorial_with_Equal_answer (order : bool) (k : nat) :
  answer (eval primitives order (30 + k) factorial_with_Equal empty initial) =
    Some (Integer 120).
Proof. rewrite eval_more_fuel; destruct order; vm_compute; congruence. Qed.


(** C2: the factorial written with [letrec] does not evaluate to 120.  The
    parser turns [(= n 0)] into the application of the variable [=];
    [Var::eval] finds neither a binding nor an entry of [primitive_map] for it
    and answers the null handle, which [Apply::eval] dereferences. *)
Theorem letrec_factorial_stops_at_equal_sign (order : bool) (k : nat) :
  parse primitives reserved_words order initial empty factorial_form =
    Parsed factorial_parsed
  /\ run order (5 + k) factorial_form empty initial = Undefined.
Proof.
  split.
  - destruct order; vm_compute; reflexivity.
  - rewrite run_more_fuel; destruct order; vm_compute; congruence.
Qed.

Lemma Letrec_vals_length ev (bs : list (string * Expr)) :
  forall env1 st vals env2 st2,
    Letrec_vals ev bs env1 st = Ok (vals, env2) st2 -> length vals = length bs.
Proof.
  induction bs as [|[x rhs] bs IH]; intros env1 st vals env2 st2 H.
  - injection H as <- _ _. reflexivity.
  - cbn [Letrec_vals] in H. unfold bind in H.
    destruct (ev rhs env1 st) as [[v env1'] st1| | |]; try discriminate H.
    destruct (Letrec_vals ev bs env1' st1) as [[vals' env1''] st1'| | |] eqn:E;
      try discriminate H.
    injection H as <- _ _. cbn [length]. f_equal. eapply IH. exact E.
Qed.


Lemma assign_cells_length (env : Assoc) (bs : list (string * Expr)) :
  forall (vals cs : list Value), length (assign_cells env bs vals cs) = length cs.
Proof.
  induction bs as [|[x rhs] bs IH]; intros vals cs; [reflexivity|].
  destruct vals as [|v vals]; [reflexivity|]. cbn [assign_cells].
  destruct (modify_cell x env); [|reflexivity].
  rewrite IH. apply length_insert.
Qed.




(** * Further properties *)

(** ** What evaluation leaves in place *)

Lemma keeps_refl (st : State) : keeps st st.
Proof.
  split; [|split].
  - intros p o H. exists o. auto.
  - reflexivity.
  - exists []. rewrite app_nil_r. reflexivity.
Qed.

Lemma keeps_trans (st1 st2 st3 : State) :
  keeps st1 st2 -> keeps st2 st3 -> keeps st1 st3.
Proof.
  intros (H1 & C1 & [m1 O1]) (H2 & C2 & [m2 O2]). split; [|split].
  - intros p o Hp. destruct (H1 p o Hp) as (o' & Hp' & T' & E').
    destruct (H2 p o' Hp') as (o'' & Hp'' & T'' & E'').
    exists o''. split; [exact Hp''|]. split; [congruence|].
    intros Hn. rewrite E'' by congruence. apply E'. exact Hn.
  - etransitivity; eassumption.
  - exists (m1 ++ m2). rewrite O2, O1, app_assoc. reflexivity.
Qed.

Lemma steady_ret {A} (a : A) : steady (ret a).
Proof. intros st. apply keeps_refl. Qed.

Lemma steady_throw {A} (msg : string) : steady (@throw A msg).
Proof. intros st. apply keeps_refl. Qed.

Lemma steady_undefined {A} : steady (@undefined A).
Proof. intros st. exact I. Qed.

Lemma steady_out_of_fuel {A} : steady (@out_of_fuel A).
Proof. intros st. exact I. Qed.

Lemma steady_bind {A B} (m : M A) (k : A -> M B) :
  steady m -> (forall a, steady (k a)) -> steady (bind m k).
Proof.
  intros Hm Hk st. unfold bind. specialize (Hm st).
  destruct (m st) as [a st1|msg st1| |]; auto.
  specialize (Hk a st1). destruct (k a st1); auto; eapply keeps_trans; eauto.
Qed.

Lemma steady_new_value (o : ValueBase) : steady (new_value o).
Proof.
  intros st. cbn. split; [|split]; cbn [heap cells out].
  - intros p o0 H. exists o0. split; [apply lookup_app_l_Some; exact H | auto].
  - reflexivity.
  - exists []. rewrite app_nil_r. reflexivity.
Qed.

Lemma steady_obj (v : Value) : steady (obj v).
Proof. intros st. unfold obj. destruct (deref v st); [apply keeps_refl | exact I]. Qed.

Lemma steady_extend x v env : steady (extend x v env).
Proof.
  intros st. cbn. split; [|split]; cbn [heap cells out].
  - intros p o H. exists o. auto.
  - rewrite length_app. apply Nat.le_add_r.
  - exists []. rewrite app_nil_r. reflexivity.
Qed.

Lemma steady_modify x v env : steady (modify x v env).
Proof.
  intros st. unfold modify. destruct (modify_cell x env); [|apply keeps_refl].
  split; [|split]; cbn [heap cells out].
  - intros p o H. exists o. auto.
  - rewrite length_insert. reflexivity.
  - exists []. rewrite app_nil_r. reflexivity.
Qed.

Lemma steady_write (x : Output) : steady (write x).
Proof.
  intros st. cbn. split; [|split]; cbn [heap cells out].
  - intros p o H. exists o. auto.
  - reflexivity.
  - exists [x]. reflexivity.
Qed.

(** Overwriting a pair by a pair is the one change evaluation makes to an
    existing object. *)
Lemma keeps_store_pair (st : State) (p : nat) (a d a' d' : Value) :
  heap st !! p = Some (Pair a d) ->
  keeps st (mkState (<[p := Pair a' d']> (heap st)) (cells st) (out st)).
Proof.
  intros Hp. split; [|split]; cbn [heap cells out].
  - intros q o Hq. destruct (decide (p = q)) as [<- | Hne].
    + exists (Pair a' d'). rewrite Hp in Hq. injection Hq as <-.
      split; [apply list_lookup_insert_eq; eapply lookup_lt_Some; exact Hp|].
      split; [reflexivity|]. intros Hn. exfalso. apply Hn. reflexivity.
    + exists o. rewrite list_lookup_insert_ne by exact Hne. auto.
  - reflexivity.
  - exists []. rewrite app_nil_r. reflexivity.
Qed.

Lemma steady_SetCar (pairv newcar : Value) : steady (SetCar_evalRator pairv newcar).
Proof.
  intros st. unfold SetCar_evalRator, bind, obj.
  destruct pairv as [p|]; cbn [deref]; [|exact I].
  destruct (heap st !! p) as [o|] eqn:Hp; [|exact I].
  destruct o; try apply keeps_refl.
  unfold store_object, VoidV.
  eapply keeps_trans; [eapply keeps_store_pair; exact Hp|].
  apply (steady_new_value Void).
Qed.

Lemma steady_SetCdr (pairv newcdr : Value) : steady (SetCdr_evalRator pairv newcdr).
Proof.
  intros st. unfold SetCdr_evalRator, bind, obj.
  destruct pairv as [p|]; cbn [deref]; [|exact I].
  destruct (heap st !! p) as [o|] eqn:Hp; [|exact I].
  destruct o; try apply keeps_refl.
  unfold store_object, VoidV.
  eapply keeps_trans; [eapply keeps_store_pair; exact Hp|].
  apply (steady_new_value Void).
Qed.

Ltac steady_auto :=
  repeat first
    [ apply steady_ret | apply steady_throw | apply steady_undefined
    | apply steady_out_of_fuel | apply steady_new_value | apply steady_obj
    | apply steady_extend | apply steady_modify | apply steady_write
    | apply steady_SetCar | apply steady_SetCdr
    | assumption
    | match goal with H : context [steady] |- _ => apply H end
    | apply steady_bind; [| intros ?]
    | match goal with
      | |- steady (match ?x with _ => _ end) => destruct x
      end ].

Lemma steady_IsList_walk (fuel : nat) : forall cur, steady (IsList_walk fuel cur).
Proof. induction fuel as [|n IH]; intros cur; cbn [IsList_walk]; steady_auto. Qed.

Lemma steady_IsList (v : Value) : steady (IsList_evalRator v).
Proof.
  intros st. unfold IsList_evalRator.
  apply (steady_bind (IsList_walk (S (length (heap st))) v) BooleanV);
    [apply steady_IsList_walk | intros b; apply steady_new_value].
Qed.

Lemma steady_Unary (op : UnaryOp) (v : Value) : steady (Unary_evalRator op v).
Proof.
  destruct op; cbn [Unary_evalRator];
    unfold type_test, Car_evalRator, Cdr_evalRator, Not_evalRator,
      Display_evalRator, BooleanV, VoidV;
    try apply steady_IsList; steady_auto.
Qed.

Lemma steady_compare (a b : Value) : steady (compareNumericValues a b).
Proof. unfold compareNumericValues. steady_auto. Qed.

Lemma steady_Binary (op : BinaryOp) (a b : Value) : steady (Binary_evalRator op a b).
Proof.
  destruct op; cbn [Binary_evalRator];
    unfold Plus_evalRator, Minus_evalRator, Mult_evalRator, Div_evalRator,
      Modulo_evalRator, Expt_evalRator, Less_evalRator, LessEq_evalRator,
      Equal_evalRator, GreaterEq_evalRator, Greater_evalRator, Cons_evalRator,
      IsEq_evalRator, IntegerV, RationalV, BooleanV, PairV;
    try apply steady_SetCar; try apply steady_SetCdr;
    repeat first
      [ apply steady_compare
      | apply steady_ret | apply steady_throw | apply steady_undefined
      | apply steady_new_value | apply steady_obj
      | apply steady_bind; [| intros ?]
      | match goal with
        | |- steady (match ?x with _ => _ end) => destruct x
        | |- steady (if ?x then _ else _) => destruct x
        end ].
Qed.

Lemma steady_ListFunc (args : list Value) : steady (ListFunc_evalRator args).
Proof.
  induction args as [|a rest IH]; cbn [ListFunc_evalRator];
    unfold NullV, PairV; steady_auto.
Qed.

Lemma steady_Variadic (op : VariadicOp) (args : list Value) :
  steady (Variadic_evalRator op args).
Proof.
  destruct op; cbn [Variadic_evalRator];
    try apply steady_undefined. apply steady_ListFunc.
Qed.

Lemma Syntax_ind_elements (P : Syntax -> Prop) :
  (forall n, P (Number n)) ->
  (forall num den, P (RationalSyntax num den)) ->
  (forall s, P (SymbolSyntax s)) ->
  (forall s, P (StringSyntax s)) ->
  P TrueSyntax -> P FalseSyntax ->
  (forall stxs, Forall P stxs -> P (List stxs)) ->
  forall s, P s.
Proof.
  intros Hn Hr Hsy Hst Ht Hf Hl. fix IH 1.
  intros [n|num den|s|s| | |stxs].
  - apply Hn.
  - apply Hr.
  - apply Hsy.
  - apply Hst.
  - exact Ht.
  - exact Hf.
  - apply Hl. induction stxs as [|x rest IHrest].
    + constructor.
    + constructor; [apply IH | exact IHrest].
Qed.

(** Quoting a non-empty list: the tail is quoted first, then the head, then
    the pair is made. *)
Lemma Quote_eval_cons (x : Syntax) (rest : list Syntax) (st : State) :
  Quote_eval (List (x :: rest)) st =
    (let* result := Quote_eval (List rest) in
     let* elem := Quote_eval x in
     PairV elem result) st.
Proof. destruct rest; reflexivity. Qed.

Lemma steady_Quote (s : Syntax) : steady (Quote_eval s).
Proof.
  induction s as [n|num den|sym|str| | |stxs IH] using Syntax_ind_elements;
    try apply steady_new_value.
  induction IH as [|x rest Hx Hrest IHrest]; [apply steady_new_value|].
  intros st. rewrite Quote_eval_cons. revert st.
  change (steady (let* result := Quote_eval (List rest) in
                  let* elem := Quote_eval x in PairV elem result)).
  unfold PairV. steady_auto.
Qed.

Lemma steady_Var_eval prims (x : string) (e : Assoc) : steady (Var_eval prims x e).
Proof.
  intros st. unfold Var_eval. destruct (find x e st); [apply keeps_refl|].
  destruct (prims !! x) as [t|]; [|apply keeps_refl].
  destruct (primitive_map t) as [[body ps]|]; [|apply keeps_refl].
  apply (steady_new_value (Procedure ps body e)).
Qed.

Lemma steady_choice {A} (test : State -> Value) (m1 m2 : M A) :
  steady m1 -> steady m2 ->
  steady (fun st => match test st with Some _ => m1 st | None => m2 st end).
Proof. intros H1 H2 st. destruct (test st); [apply H1 | apply H2]. Qed.

Lemma steady_Letrec_placeholders (bs : list (string * Expr)) :
  forall env1, steady (Letrec_placeholders bs env1).
Proof.
  induction bs as [|[x rhs] bs IH]; intros env1; cbn [Letrec_placeholders];
    steady_auto.
Qed.

Lemma steady_Letrec_assign (bs : list (string * Expr)) :
  forall vals env2, steady (Letrec_assign bs vals env2).
Proof.
  induction bs as [|[x rhs] bs IH]; intros vals env2; cbn [Letrec_assign];
    [steady_auto|]. destruct vals; steady_auto.
Qed.

Lemma steady_bind_parameters (ps : list string) :
  forall args call_env, steady (bind_parameters ps args call_env).
Proof.
  induction ps as [|p ps IH]; intros args call_env; cbn [bind_parameters];
    [steady_auto|]. destruct args; steady_auto.
Qed.

Section Steady.
Variable ev : Expr -> Assoc -> M (Value * Assoc).
Hypothesis ev_steady : forall ex e, steady (ev ex e).

Lemma steady_eval_rands rands : forall e, steady (eval_rands ev rands e).
Proof. induction rands as [|ex rest IH]; intros e; cbn [eval_rands]; steady_auto. Qed.

Lemma steady_Begin_loop es : forall last e, steady (Begin_loop ev es last e).
Proof. induction es as [|ex rest IH]; intros last e; cbn [Begin_loop]; steady_auto. Qed.

Lemma steady_AndVar_loop rands : forall last e, steady (AndVar_loop ev rands last e).
Proof.
  induction rands as [|ex rest IH]; intros last e; cbn [AndVar_loop]; steady_auto.
Qed.

Lemma steady_OrVar_loop rands : forall last e, steady (OrVar_loop ev rands last e).
Proof.
  induction rands as [|ex rest IH]; intros last e; cbn [OrVar_loop]; steady_auto.
Qed.

Lemma steady_Let_loop bs : forall env local, steady (Let_loop ev bs env local).
Proof.
  induction bs as [|[x rhs] rest IH]; intros env local; cbn [Let_loop]; steady_auto.
Qed.

Lemma steady_Letrec_vals bs : forall env1, steady (Letrec_vals ev bs env1).
Proof.
  induction bs as [|[x rhs] rest IH]; intros env1; cbn [Letrec_vals]; steady_auto.
Qed.

Lemma steady_Binary_rands order rand1 rand2 e :
  steady (Binary_rands order ev rand1 rand2 e).
Proof. unfold Binary_rands. destruct order; steady_auto. Qed.

Lemma steady_eval_node prims order ex e : steady (eval_node prims order ev ex e).
Proof.
  destruct ex; cbn [eval_node];
    unfold IntegerV, RationalV, StringV, BooleanV, VoidV, TerminateV, ProcedureV;
    repeat first
      [ apply steady_ret | apply steady_throw | apply steady_undefined
      | apply steady_new_value | apply steady_obj | apply steady_extend
      | apply steady_modify
      | apply ev_steady
      | apply steady_Unary | apply steady_Binary | apply steady_Variadic
      | apply steady_Quote | apply steady_Var_eval
      | apply steady_eval_rands | apply steady_Begin_loop
      | apply steady_AndVar_loop | apply steady_OrVar_loop
      | apply steady_Let_loop | apply steady_Letrec_vals
      | apply steady_Binary_rands | apply steady_Letrec_placeholders
      | apply steady_Letrec_assign | apply steady_bind_parameters
      | apply steady_choice
      | apply steady_bind; [| intros ?]
      | match goal with
        | |- steady (match ?x with _ => _ end) => destruct x
        end ].
Qed.
End Steady.

Lemma steady_eval prims order (n : nat) :
  forall ex e, steady (eval prims order n ex e).
Proof.
  induction n as [|n IH]; intros ex e.
  - apply steady_out_of_fuel.
  - apply (steady_eval_node (eval prims order n) IH).
Qed.

(** X1: whatever expression is evaluated, and whether the evaluation ends with
    a value or with a [RuntimeError], no object disappears from the heap or
    changes its kind, every object other than a pair is left exactly as it
    was, no environment cell is removed, and the output already written stays
    a prefix of the output. *)
Theorem eval_keeps_the_store (prims : gmap string ExprType) (order : bool)
    (n : nat) (ex : Expr) (e : Assoc) (st : State) :
  match eval prims order n ex e st with
  | Ok _ st' | Throw _ st' =>
      (forall p o, heap st !! p = Some o ->
         exists o', heap st' !! p = Some o' /\ v_type o' = v_type o
                    /\ (v_type o <> V_PAIR -> o' = o))
      /\ (length (heap st) <= length (heap st'))%nat
      /\ (length (cells st) <= length (cells st'))%nat
      /\ (exists more, out st' = out st ++ more)
  | _ => True
  end.
Proof.
  pose proof (steady_eval prims order n ex e st) as H.
  destruct (eval prims order n ex e st) as [a st'|msg st'| |]; auto;
    destruct H as (Hh & Hc & Ho); (split; [exact Hh|split; [|split; assumption]]).
  - destruct (decide (length (heap st) <= length (heap st'))%nat) as [|Hgt]; [assumption|].
    exfalso. apply Nat.nle_gt in Hgt.
    destruct (lookup_lt_is_Some_2 (heap st) (length (heap st'))) as [o Ho'];
      [exact Hgt|].
    destruct (Hh _ _ Ho') as (o' & Hl & _).
    apply lookup_lt_Some in Hl. exact (Nat.lt_irrefl _ Hl).
  - destruct (decide (length (heap st) <= length (heap st'))%nat) as [|Hgt]; [assumption|].
    exfalso. apply Nat.nle_gt in Hgt.
    destruct (lookup_lt_is_Some_2 (heap st) (length (heap st'))) as [o Ho'];
      [exact Hgt|].
    destruct (Hh _ _ Ho') as (o' & Hl & _).
    apply lookup_lt_Some in Hl. exact (Nat.lt_irrefl _ Hl).
Qed.

(** ** expt *)

Lemma fits_int_spec (z : Z) : fits_int z = true <-> INT_MIN <= z <= INT_MAX.
Proof.
  unfold fits_int. rewrite andb_true_iff, !Z.leb_le. reflexivity.
Qed.

Lemma fits_int_false (z : Z) : fits_int z = false <-> z < INT_MIN \/ INT_MAX < z.
Proof.
  unfold fits_int. rewrite andb_false_iff, !Z.leb_gt. tauto.
Qed.

Lemma square_is_not_2_31 (b : Z) : b * b <> 2147483648.
Proof.
  intros H.
  destruct (Z_le_gt_dec b 46340) as [Hle | Hgt];
    destruct (Z_le_gt_dec (-46340) b) as [Hge | Hlt]; nia.
Qed.

(** A square that leaves the [int] range takes every later product with it. *)
Lemma overflown_square (result b : Z) (p : positive) :
  result <> 0 -> fits_int (b * b) = false ->
  fits_int (result * (b * b) ^ Zpos p) = false.
Proof.
  intros Hr Hb. apply fits_int_false in Hb. apply fits_int_false.
  unfold INT_MIN, INT_MAX in *.
  pose proof (square_is_not_2_31 b) as Hsq.
  assert (HB : 2147483649 <= b * b) by nia.
  assert (Hpow : b * b <= (b * b) ^ Zpos p).
  { replace (b * b) with ((b * b) ^ 1) at 1 by apply Z.pow_1_r.
    apply Z.pow_le_mono_r; lia. }
  nia.
Qed.

Lemma overflown_product (result b : Z) (p : positive) :
  b <> 0 -> fits_int (result * b) = false ->
  fits_int (result * b * (b * b) ^ Zpos p) = false.
Proof.
  intros Hb Hr. apply fits_int_false in Hr. apply fits_int_false.
  unfold INT_MIN, INT_MAX in *.
  assert (Hpow : 1 <= (b * b) ^ Zpos p).
  { replace 1 with (1 ^ Zpos p) by apply Z.pow_1_l, Pos2Z.is_nonneg.
    apply Z.pow_le_mono_l. nia. }
  nia.
Qed.

Lemma pow_double (b : Z) (p : positive) : b ^ Zpos (xO p) = (b * b) ^ Zpos p.
Proof.
  rewrite Pos2Z.inj_xO, Z.pow_mul_r by lia. f_equal. apply Z.pow_2_r.
Qed.

Lemma pow_double_plus_one (b : Z) (p : positive) :
  b ^ Zpos (xI p) = b * (b * b) ^ Zpos p.
Proof.
  rewrite Pos2Z.inj_xI, Z.pow_add_r, Z.pow_1_r, Z.pow_mul_r by lia.
  rewrite Z.pow_2_r. apply Z.mul_comm.
Qed.

(** The loop of [expt] computes [result * b ^ exp] and takes the overflow exit
    exactly when that number does not fit an [int]. *)
Lemma expt_loop_power (exp : positive) :
  forall result b : Z,
    result <> 0 -> b <> 0 ->
    expt_loop exp result b =
      if fits_int (result * b ^ Zpos exp) then Some (result * b ^ Zpos exp)
      else None.
Proof.
  induction exp as [p IH | p IH |]; intros result b Hr Hb; cbn [expt_loop].
  - rewrite pow_double_plus_one, Z.mul_assoc.
    destruct (fits_int (result * b)) eqn:F1.
    + destruct (fits_int (b * b)) eqn:F2.
      * apply IH; nia.
      * rewrite overflown_square; [reflexivity | nia | exact F2].
    + rewrite overflown_product; [reflexivity | exact Hb | exact F1].
  - rewrite pow_double.
    destruct (fits_int (b * b)) eqn:F2.
    + apply IH; nia.
    + rewrite overflown_square; [reflexivity | exact Hr | exact F2].
  - rewrite Z.pow_1_r. reflexivity.
Qed.

Lemma expt_loop_zero (exp : positive) :
  forall result : Z, fits_int result = true -> expt_loop exp result 0 = Some 0.
Proof.
  assert (F0 : fits_int 0 = true) by reflexivity.
  induction exp as [p IH | p IH |]; intros result Hr; cbn [expt_loop];
    cbv zeta; rewrite ?Z.mul_0_r, ?F0.
  - apply IH. exact F0.
  - apply IH. exact Hr.
  - reflexivity.
Qed.

(** The loop of [Expt::evalRator] on its domain, shared by the statements
    about the primitive and about the form [(expt a b)]. *)
Lemma Expt_evalRator_on_integers (rand1 rand2 : Value) (st : State) (base exponent : Z) :
  deref rand1 st = Some (Integer base) ->
  deref rand2 st = Some (Integer exponent) ->
  0 <= exponent -> (base <> 0 \/ exponent <> 0) ->
  Expt_evalRator rand1 rand2 st =
    if fits_int (base ^ exponent)
    then Ok (Some (length (heap st)))
            (mkState (heap st ++ [Integer (base ^ exponent)]) (cells st) (out st))
    else Throw "Integer overflow in expt" st.
Proof.
  intros H1 H2 Hexp Hnz. unfold Expt_evalRator, bind.
  rewrite (obj_deref _ _ _ H1), (obj_deref _ _ _ H2).
  destruct (Z.ltb_spec exponent 0) as [Hneg | _]; [lia|].
  destruct ((base =? 0) && (exponent =? 0)) eqn:Hzz.
  { apply andb_true_iff in Hzz as [Hb He].
    apply Z.eqb_eq in Hb. apply Z.eqb_eq in He. lia. }
  destruct exponent as [|exp|exp]; [reflexivity| |lia].
  destruct (Z.eq_dec base 0) as [-> | Hb].
  - rewrite expt_loop_zero by reflexivity.
    rewrite Z.pow_0_l by lia. reflexivity.
  - rewrite expt_loop_power by lia. rewrite Z.mul_1_l.
    destruct (fits_int (base ^ Zpos exp)); reflexivity.
Qed.

(** X2: for integers [base] and [exponent >= 0], not both zero, [expt]
    answers a new integer [base ^ exponent] when that power fits an [int], and
    raises "Integer overflow in expt", store untouched, when it does not. *)
Theorem Expt_evalRator_power (rand1 rand2 : Value) (st : State) (base exponent : Z) :
  deref rand1 st = Some (Integer base) ->
  deref rand2 st = Some (Integer exponent) ->
  0 <= exponent -> (base <> 0 \/ exponent <> 0) ->
  Expt_evalRator rand1 rand2 st =
    if fits_int (base ^ exponent)
    then Ok (Some (length (heap st)))
            (mkState (heap st ++ [Integer (base ^ exponent)]) (cells st) (out st))
    else Throw "Integer overflow in expt" st.
Proof.
  intros H1 H2 Hexp Hnz. apply Expt_evalRator_on_integers; assumption.
Qed.

Lemma Expt_evalRator_power_witness :
  deref (Some 0%nat) (mkState [Integer 2; Integer 10] [] []) = Some (Integer 2)
  /\ deref (Some 1%nat) (mkState [Integer 2; Integer 10] [] []) = Some (Integer 10)
  /\ 0 <= 10 /\ (2 <> 0 \/ 10 <> 0)
  /\ Expt_evalRator (Some 0%nat) (Some 1%nat) (mkState [Integer 2; Integer 10] [] []) =
       Ok (Some 2%nat) (mkState [Integer 2; Integer 10; Integer 1024] [] []).
Proof.
  split; [reflexivity|]. split; [reflexivity|].
  split; [discriminate|]. split; [left; discriminate|].
  apply (Expt_evalRator_power (Some 0%nat) (Some 1%nat)
           (mkState [Integer 2; Integer 10] [] []) 2 10 eq_refl eq_refl).
  - discriminate.
  - left. discriminate.
Defined.

(** Outside that domain: a negative exponent and [0 ^ 0] are rejected, and so
    is any operand that is not an integer. *)
Lemma Expt_evalRator_domain (rand1 rand2 : Value) (st : State) (base exponent : Z) :
  deref rand1 st = Some (Integer base) ->
  deref rand2 st = Some (Integer exponent) ->
  (exponent < 0 ->
     Expt_evalRator rand1 rand2 st =
       Throw "Negative exponent not supported for integers" st)
  /\ (base = 0 -> exponent = 0 ->
        Expt_evalRator rand1 rand2 st = Throw "0^0 is undefined" st).
Proof.
  intros H1 H2. unfold Expt_evalRator, bind.
  rewrite (obj_deref _ _ _ H1), (obj_deref _ _ _ H2). split.
  - intros Hneg. destruct (Z.ltb_spec exponent 0); [reflexivity | lia].
  - intros -> ->. reflexivity.
Qed.

(** ** Arithmetic on the numeric tower *)

(** X3: [+], [-] and [*] are closed on numbers: on two numbers each of them
    answers one new object and changes nothing else; the answer is an integer
    when both operands are integers and a rational as soon as one of them is
    a rational. *)
Theorem arithmetic_closed_on_numbers (op : BinaryOp) (a b : Value) (st : State)
    (oa ob : ValueBase) :
  additive_or_product op = true ->
  deref a st = Some oa -> deref b st = Some ob ->
  is_number oa = true -> is_number ob = true ->
  exists o : ValueBase,
    Binary_evalRator op a b st =
      Ok (Some (length (heap st)))
         (mkState (heap st ++ [o]) (cells st) (out st))
    /\ is_number o = true
    /\ tag_is_int o = tag_is_int oa && tag_is_int ob.
Proof.
  intros Hop Ha Hb Na Nb.
  destruct op; try discriminate Hop; cbn [Binary_evalRator];
    unfold Plus_evalRator, Minus_evalRator, Mult_evalRator, bind;
    rewrite (obj_deref _ _ _ Ha);
    destruct oa; try discriminate Na;
    rewrite (obj_deref _ _ _ Hb);
    destruct ob; try discriminate Nb;
    eexists; (split; [reflexivity|]); split; reflexivity.
Qed.

Lemma arithmetic_closed_on_numbers_witness :
  additive_or_product Mult = true
  /\ deref (Some 0%nat) two_numbers = Some (Rational 1 2)
  /\ deref (Some 1%nat) two_numbers = Some (Integer 3)
  /\ is_number (Rational 1 2) = true /\ is_number (Integer 3) = true
  /\ exists o : ValueBase,
       Binary_evalRator Mult (Some 0%nat) (Some 1%nat) two_numbers =
         Ok (Some 2%nat) (mkState (heap two_numbers ++ [o]) [] [])
       /\ is_number o = true
       /\ tag_is_int o = false.
Proof.
  repeat (split; [reflexivity|]).
  apply (arithmetic_closed_on_numbers Mult (Some 0%nat) (Some 1%nat) two_numbers
           (Rational 1 2) (Integer 3)); reflexivity.
Defined.

(** X4: an operand that is not a number makes [+], [-] and [*] raise
    "Wrong typename" and leave the store as it was, whichever operand it is. *)
Theorem arithmetic_rejects_other_kinds (op : BinaryOp) (a b : Value) (st : State)
    (oa ob : ValueBase) :
  additive_or_product op = true ->
  deref a st = Some oa -> deref b st = Some ob ->
  is_number oa && is_number ob = false ->
  Binary_evalRator op a b st = Throw "Wrong typename" st.
Proof.
  intros Hop Ha Hb Hn.
  destruct op; try discriminate Hop; cbn [Binary_evalRator];
    unfold Plus_evalRator, Minus_evalRator, Mult_evalRator, bind;
    rewrite (obj_deref _ _ _ Ha);
    destruct oa; try reflexivity;
    rewrite (obj_deref _ _ _ Hb);
    destruct ob; try reflexivity; discriminate Hn.
Qed.

Lemma arithmetic_rejects_other_kinds_witness :
  additive_or_product Plus = true
  /\ deref (Some 0%nat) (mkState [Integer 3; StringO "x"] [] []) = Some (Integer 3)
  /\ deref (Some 1%nat) (mkState [Integer 3; StringO "x"] [] []) = Some (StringO "x")
  /\ is_number (Integer 3) && is_number (StringO "x") = false
  /\ Binary_evalRator Plus (Some 0%nat) (Some 1%nat)
       (mkState [Integer 3; StringO "x"] [] []) =
       Throw "Wrong typename" (mkState [Integer 3; StringO "x"] [] []).
Proof.
  repeat (split; [reflexivity|]).
  apply (arithmetic_rejects_other_kinds Plus (Some 0%nat) (Some 1%nat)
           (mkState [Integer 3; StringO "x"] [] [])
           (Integer 3) (StringO "x")); reflexivity.
Defined.

(** X5: a divisor equal to zero (the integer 0 or a rational with numerator 0)
    makes [/] raise "Division by zero" before the dividend is looked at: the
    dividend may be anything, a null handle included.  On a zero integer
    divisor [modulo] raises the same error once the dividend is known to be an
    integer. *)
Theorem zero_divisor_is_rejected_first (a b : Value) (st : State)
    (ob : ValueBase) (d : Z) :
  deref b st = Some ob -> num_den ob = Some (0, d) ->
  Div_evalRator a b st = Throw "Division by zero" st
  /\ (forall n, deref a st = Some (Integer n) -> ob = Integer 0 ->
        Modulo_evalRator a b st = Throw "Division by zero" st).
Proof.
  intros Hb Hz. split.
  - unfold Div_evalRator, bind. rewrite (obj_deref _ _ _ Hb).
    destruct ob; try discriminate Hz; injection Hz as -> _; reflexivity.
  - intros n Ha ->. unfold Modulo_evalRator, bind.
    rewrite (obj_deref _ _ _ Ha), (obj_deref _ _ _ Hb). reflexivity.
Qed.

Lemma zero_divisor_is_rejected_first_witness :
  deref (Some 0%nat) (mkState [Rational 0 5] [] []) = Some (Rational 0 5)
  /\ num_den (Rational 0 5) = Some (0, 5)
  /\ Div_evalRator None (Some 0%nat) (mkState [Rational 0 5] [] []) =
       Throw "Division by zero" (mkState [Rational 0 5] [] []).
Proof.
  repeat (split; [reflexivity|]).
  apply (zero_divisor_is_rejected_first None (Some 0%nat)
           (mkState [Rational 0 5] [] []) (Rational 0 5) 5 eq_refl eq_refl).
Defined.

(** X6: [modulo] on integers with a non-zero divisor (and not [INT_MIN] by
    -1) answers the remainder of the division that truncates towards zero:
    [dividend = divisor * q + r] with [|r| < |divisor|], and [r] is zero or
    has the sign of the dividend. *)
Theorem Modulo_evalRator_truncates (a b : Value) (st : State) (dividend divisor : Z) :
  deref a st = Some (Integer dividend) -> deref b st = Some (Integer divisor) ->
  divisor <> 0 -> (dividend <> INT_MIN \/ divisor <> -1) ->
  exists r : Z,
    Modulo_evalRator a b st =
      Ok (Some (length (heap st)))
         (mkState (heap st ++ [Integer r]) (cells st) (out st))
    /\ dividend = divisor * Z.quot dividend divisor + r
    /\ Z.abs r < Z.abs divisor
    /\ 0 <= r * dividend.
Proof.
  intros Ha Hb Hnz Hmin. exists (Z.rem dividend divisor). split; [|split; [|split]].
  - unfold Modulo_evalRator, bind.
    rewrite (obj_deref _ _ _ Ha), (obj_deref _ _ _ Hb).
    destruct (Z.eqb_spec divisor 0) as [|_]; [contradiction|].
    destruct ((dividend =? INT_MIN) && (divisor =? -1)) eqn:E; [|reflexivity].
    apply andb_true_iff in E as [E1 E2].
    apply Z.eqb_eq in E1. apply Z.eqb_eq in E2. destruct Hmin; contradiction.
  - apply Z.quot_rem'.
  - apply Z.rem_bound_abs. exact Hnz.
  - apply Z.rem_sign_mul. exact Hnz.
Qed.

Lemma Modulo_evalRator_truncates_witness :
  deref (Some 0%nat) (mkState [Integer (-7); Integer 2] [] []) = Some (Integer (-7))
  /\ deref (Some 1%nat) (mkState [Integer (-7); Integer 2] [] []) = Some (Integer 2)
  /\ 2 <> 0 /\ (-7 <> INT_MIN \/ 2 <> -1)
  /\ exists r : Z,
       Modulo_evalRator (Some 0%nat) (Some 1%nat)
         (mkState [Integer (-7); Integer 2] [] []) =
         Ok (Some 2%nat) (mkState ([Integer (-7); Integer 2] ++ [Integer r]) [] [])
       /\ -7 = 2 * Z.quot (-7) 2 + r
       /\ Z.abs r < Z.abs 2
       /\ 0 <= r * -7.
Proof.
  split; [reflexivity|]. split; [reflexivity|].
  split; [discriminate|]. split; [left; discriminate|].
  apply (Modulo_evalRator_truncates (Some 0%nat) (Some 1%nat)
           (mkState [Integer (-7); Integer 2] [] []) (-7) 2 eq_refl eq_refl).
  - discriminate.
  - left. discriminate.
Defined.

(** ** The comparator *)

Lemma three_way_compare (l r : Z) : three_way l r = sign_of (l ?= r).
Proof.
  unfold three_way, Z.gtb.
  destruct (Z.ltb_spec l r) as [H | H].
  - apply Z.compare_lt_iff in H. rewrite H. reflexivity.
  - destruct (l ?= r) eqn:E; try reflexivity.
    change (l < r) in E. exfalso. lia.
Qed.

Lemma three_way_swap (l r : Z) : three_way r l = - three_way l r.
Proof.
  rewrite !three_way_compare, (Z.compare_antisym l r).
  destruct (l ?= r); reflexivity.
Qed.

(** The two cross products the comparator compares, for both orders of the
    operands. *)
Lemma compareNumericValues_both_ways a b st oa ob :
  deref a st = Some oa -> deref b st = Some ob ->
  is_number oa = true -> is_number ob = true ->
  exists l r,
    compareNumericValues a b st = Ok (three_way l r) st
    /\ compareNumericValues b a st = Ok (three_way r l) st.
Proof.
  intros Ha Hb Na Nb. unfold compareNumericValues, bind.
  rewrite (obj_deref _ _ _ Ha), (obj_deref _ _ _ Hb).
  destruct oa; try discriminate Na; rewrite ?(obj_deref _ _ _ Hb);
    destruct ob; try discriminate Nb; rewrite ?(obj_deref _ _ _ Ha);
    unfold ret; eauto.
Qed.

(** X7: on numbers the comparator is antisymmetric, also where its products
    wrap around: comparing [b] with [a] answers the opposite of comparing [a]
    with [b].  So [(< a b)] and [(> b a)] answer the same, [(<= a b)] and
    [(>= b a)] too, [(= a b)] and [(= b a)] too, and [(<= a b)] is the
    negation of [(> a b)]. *)
Theorem comparison_antisymmetric (a b : Value) (st : State) (oa ob : ValueBase) :
  deref a st = Some oa -> deref b st = Some ob ->
  is_number oa = true -> is_number ob = true ->
  exists c : Z,
    compareNumericValues a b st = Ok c st
    /\ compareNumericValues b a st = Ok (- c) st
    /\ truth (Less_evalRator a b st) = truth (Greater_evalRator b a st)
    /\ truth (LessEq_evalRator a b st) = truth (GreaterEq_evalRator b a st)
    /\ truth (Equal_evalRator a b st) = truth (Equal_evalRator b a st)
    /\ truth (LessEq_evalRator a b st) = negb <$> truth (Greater_evalRator a b st).
Proof.
  intros Ha Hb Na Nb.
  destruct (compareNumericValues_both_ways a b st oa ob Ha Hb Na Nb)
    as (l & r & Hab & Hba).
  rewrite three_way_swap in Hba.
  exists (three_way l r). split; [exact Hab|]. split; [exact Hba|].
  destruct (ordering_wrappers a b st _ Hab) as (Hlt & Hle & Heq & Hge & Hgt).
  destruct (ordering_wrappers b a st _ Hba) as (Hlt' & Hle' & Heq' & Hge' & Hgt').
  rewrite Hlt, Hle, Heq, Hgt, Hgt', Hge', Heq'.
  destruct (three_way_range l r) as [-> | [-> | ->]]; repeat split.
Qed.

Lemma comparison_antisymmetric_witness :
  deref (Some 0%nat) two_numbers = Some (Rational 1 2)
  /\ deref (Some 1%nat) two_numbers = Some (Integer 3)
  /\ is_number (Rational 1 2) = true /\ is_number (Integer 3) = true
  /\ exists c : Z,
       compareNumericValues (Some 0%nat) (Some 1%nat) two_numbers = Ok c two_numbers
       /\ compareNumericValues (Some 1%nat) (Some 0%nat) two_numbers = Ok (- c) two_numbers
       /\ truth (Less_evalRator (Some 0%nat) (Some 1%nat) two_numbers) =
            truth (Greater_evalRator (Some 1%nat) (Some 0%nat) two_numbers)
       /\ truth (LessEq_evalRator (Some 0%nat) (Some 1%nat) two_numbers) =
            truth (GreaterEq_evalRator (Some 1%nat) (Some 0%nat) two_numbers)
       /\ truth (Equal_evalRator (Some 0%nat) (Some 1%nat) two_numbers) =
            truth (Equal_evalRator (Some 1%nat) (Some 0%nat) two_numbers)
       /\ truth (LessEq_evalRator (Some 0%nat) (Some 1%nat) two_numbers) =
            negb <$> truth (Greater_evalRator (Some 0%nat) (Some 1%nat) two_numbers).
Proof.
  repeat (split; [reflexivity|]).
  apply (comparison_antisymmetric (Some 0%nat) (Some 1%nat) two_numbers
           (Rational 1 2) (Integer 3)); reflexivity.
Defined.

(** X8: when both denominators are positive and the two cross products fit
    an [int], the comparator answers the order of the two fractions as
    rational numbers: -1, 0 or 1 as [n1/d1] is less than, equal to or greater
    than [n2/d2] (an integer [n] counting as [n/1]). *)
Theorem comparison_is_the_rational_order (a b : Value) (st : State)
    (oa ob : ValueBase) (n1 d1 n2 d2 : Z) :
  deref a st = Some oa -> deref b st = Some ob ->
  num_den oa = Some (n1, d1) -> num_den ob = Some (n2, d2) ->
  0 < d1 -> 0 < d2 ->
  fits_int (n1 * d2) = true -> fits_int (n2 * d1) = true ->
  compareNumericValues a b st =
    Ok (sign_of (QArith_base.Qcompare
                   (QArith_base.Qmake n1 (Z.to_pos d1))
                   (QArith_base.Qmake n2 (Z.to_pos d2)))) st.
Proof.
  intros Ha Hb Hna Hnb P1 P2 F1 F2.
  unfold QArith_base.Qcompare. cbn [QArith_base.Qnum QArith_base.Qden].
  rewrite !Z2Pos.id by assumption.
  unfold compareNumericValues, bind. rewrite (obj_deref _ _ _ Ha).
  destruct oa; try discriminate Hna; injection Hna as <- <-;
    rewrite (obj_deref _ _ _ Hb);
    destruct ob; try discriminate Hnb; injection Hnb as <- <-;
    unfold ret, int_mul; rewrite ?Z.mul_1_r in *;
    rewrite ?(wrap32_fits _ F1), ?(wrap32_fits _ F2), three_way_compare;
    reflexivity.
Qed.

Lemma comparison_is_the_rational_order_witness :
  deref (Some 0%nat) two_numbers = Some (Rational 1 2)
  /\ deref (Some 1%nat) two_numbers = Some (Integer 3)
  /\ num_den (Rational 1 2) = Some (1, 2) /\ num_den (Integer 3) = Some (3, 1)
  /\ 0 < 2 /\ 0 < 1
  /\ fits_int (1 * 1) = true /\ fits_int (3 * 2) = true
  /\ compareNumericValues (Some 0%nat) (Some 1%nat) two_numbers = Ok (-1) two_numbers.
Proof.
  repeat (split; [reflexivity|]).
  apply (comparison_is_the_rational_order (Some 0%nat) (Some 1%nat) two_numbers
           (Rational 1 2) (Integer 3) 1 2 3 1); reflexivity.
Defined.

(** ** Quotation *)

Lemma represents_grow (st st' : State) (v : Value) (s : Syntax) :
  (exists more, heap st' = heap st ++ more) ->
  represents st v s -> represents st' v s.
Proof.
  intros [more Hm] H.
  induction H; econstructor; try eassumption;
    rewrite Hm; apply lookup_app_l_Some; assumption.
Qed.

Lemma represents_functional (st : State) (v : Value) (s1 : Syntax) :
  represents st v s1 -> forall s2, represents st v s2 -> s1 = s2.
Proof.
  induction 1 as [p n H|p num den H|p H|p H|p s H|p s H|p H
                 |p a d x rest H Ha IHa Hd IHd];
    intros s2 H2; inversion H2; subst;
    try (rewrite H in *; discriminate);
    try (match goal with
         | H' : heap st !! p = Some _ |- _ => rewrite H in H'; injection H' as <-
         end; reflexivity);
    try reflexivity.
  - match goal with
    | H' : heap st !! p = Some (Rational _ _) |- _ =>
        rewrite H in H'; injection H' as <- <-
    end. reflexivity.
  - match goal with
    | H' : heap st !! p = Some (Pair _ _) |- _ =>
        rewrite H in H'; injection H' as <- <-
    end.
    f_equal.
    match goal with
    | Hx : represents st a ?x0, Hr : represents st d (List ?r0) |- _ =>
        rewrite (IHa _ Hx); pose proof (IHd _ Hr) as E; injection E as ->
    end.
    reflexivity.
Qed.

(** What [Quote::eval] builds represents the tree it was given. *)
Lemma Quote_eval_represents (s : Syntax) :
  forall st : State,
    exists (p : nat) (st' : State),
      Quote_eval s st = Ok (Some p) st'
      /\ (exists more, heap st' = heap st ++ more)
      /\ cells st' = cells st /\ out st' = out st
      /\ represents st' (Some p) s.
Proof.
  induction s as [n|num den|sym|str| | |stxs IH] using Syntax_ind_elements;
      intros st;
      try (eexists _, _; split; [reflexivity|]; cbn [heap cells out];
           split; [eexists; reflexivity|]; split; [reflexivity|];
           split; [reflexivity|]; constructor; apply list_lookup_middle;
           reflexivity).
    revert st. induction IH as [|x rest Hx Hrest IHrest]; intros st.
    - eexists _, _. split; [reflexivity|]. cbn [heap cells out].
      split; [eexists; reflexivity|]. split; [reflexivity|].
      split; [reflexivity|]. constructor. apply list_lookup_middle. reflexivity.
    - rewrite Quote_eval_cons. unfold bind.
      destruct (IHrest st) as (pr & st1 & -> & [m1 Hm1] & Hc1 & Ho1 & Hr1).
      destruct (Hx st1) as (px & st2 & -> & [m2 Hm2] & Hc2 & Ho2 & Hr2).
      eexists _, _. split; [reflexivity|]. cbn [heap cells out].
      split; [exists (m1 ++ m2 ++ [Pair (Some px) (Some pr)]);
              rewrite Hm2, Hm1, <- !app_assoc; reflexivity|].
      split; [congruence|]. split; [congruence|].
      eapply represents_pair.
      + apply list_lookup_middle. reflexivity.
      + eapply represents_grow; [|exact Hr2]. cbn [heap]. eexists. reflexivity.
      + eapply represents_grow; [|exact Hr1]. cbn [heap].
        exists (m2 ++ [Pair (Some px) (Some pr)]).
        rewrite Hm2, <- app_assoc. reflexivity.
Qed.

(** X9: quoting never fails and only adds objects.  The value it answers
    represents the quoted syntax tree, element by element, and represents no
    other tree: reading the structure back gives the tree that was quoted. *)
Theorem Quote_eval_round_trip (s : Syntax) :
  forall st : State,
    exists (p : nat) (st' : State),
      Quote_eval s st = Ok (Some p) st'
      /\ (exists more, heap st' = heap st ++ more)
      /\ cells st' = cells st /\ out st' = out st
      /\ represents st' (Some p) s
      /\ (forall s', represents st' (Some p) s' -> s' = s).
Proof.
  intros st. destruct (Quote_eval_represents s st) as (p & st' & Hq & Hm & Hc & Ho & Hr).
  exists p, st'. repeat (split; [assumption|]).
  intros s' Hs'. symmetry. eapply represents_functional; eassumption.
Qed.

(** ** Pairs and lists *)

Lemma proper_list_grow (st st' : State) (v : Value) (vs : list Value) :
  (exists more, heap st' = heap st ++ more) ->
  proper_list st v vs -> proper_list st' v vs.
Proof.
  intros [more Hm] H.
  induction H; econstructor; try eassumption;
    rewrite Hm; apply lookup_app_l_Some; assumption.
Qed.

(** X10: [(list a1 ... an)] never fails: it adds [n + 1] objects, the null
    object and one pair per argument, and answers a proper list whose
    elements are exactly the argument values, in order. *)
Theorem ListFunc_builds_a_proper_list (args : list Value) :
  forall st : State,
    exists (p : nat) (st' : State) (more : list ValueBase),
      ListFunc_evalRator args st = Ok (Some p) st'
      /\ heap st' = heap st ++ more /\ length more = S (length args)
      /\ cells st' = cells st /\ out st' = out st
      /\ proper_list st' (Some p) args.
Proof.
  induction args as [|a rest IH]; intros st.
  - eexists _, _, _. split; [reflexivity|]. cbn [heap cells out].
    repeat (split; [reflexivity|]).
    constructor. apply list_lookup_middle. reflexivity.
  - cbn [ListFunc_evalRator]. unfold bind.
    destruct (IH st) as (pr & st1 & m1 & -> & Hm1 & Hl1 & Hc1 & Ho1 & Hp1).
    eexists _, _, (m1 ++ [Pair a (Some pr)]).
    split; [reflexivity|]. cbn [heap cells out].
    split; [rewrite Hm1, <- app_assoc; reflexivity|].
    split; [rewrite length_app, Hl1, Nat.add_1_r; reflexivity|].
    split; [exact Hc1|]. split; [exact Ho1|].
    eapply proper_pair.
    + apply list_lookup_middle. reflexivity.
    + eapply proper_list_grow; [|exact Hp1]. cbn [heap]. eexists. reflexivity.
Qed.

Lemma pair_cells_of_proper_list (st : State) (v : Value) (vs : list Value) :
  proper_list st v vs -> exists ps, pair_cells st v ps /\ length ps = length vs.
Proof.
  induction 1 as [p H|p a d rest H Hd [ps [Hps Hlen]]].
  - exists []. split; [constructor; exact H | reflexivity].
  - exists (p :: ps). split; [econstructor; eassumption | cbn; congruence].
Qed.

Lemma pair_cells_functional (st : State) (v : Value) (ps1 : list nat) :
  pair_cells st v ps1 -> forall ps2, pair_cells st v ps2 -> ps1 = ps2.
Proof.
  induction 1 as [p H|p a d ps H Hd IH]; intros ps2 H2; inversion H2; subst;
    try (rewrite H in *; discriminate); [reflexivity|].
  match goal with
  | H' : heap st !! p = Some (Pair _ _) |- _ =>
      rewrite H in H'; injection H' as <- <-
  end.
  f_equal. apply IH. assumption.
Qed.

Lemma pair_cells_from (st : State) (v : Value) (ps : list nat) (q : nat) :
  pair_cells st v ps -> In q ps ->
  exists ps', pair_cells st (Some q) (q :: ps')
              /\ (length (q :: ps') <= length ps)%nat.
Proof.
  induction 1 as [p H|p a d ps H Hd IH]; intros Hq; [destruct Hq|].
  destruct Hq as [<- | Hq].
  - exists ps. split; [econstructor; eassumption | reflexivity].
  - destruct (IH Hq) as (ps' & Hps' & Hlen). exists ps'.
    split; [exact Hps'|]. cbn [length] in *. apply Nat.le_le_succ_r. exact Hlen.
Qed.

Lemma pair_cells_NoDup (st : State) (v : Value) (ps : list nat) :
  pair_cells st v ps -> List.NoDup ps.
Proof.
  induction 1 as [p H|p a d ps H Hd IH]; constructor; [|exact IH].
  intros Hin.
  destruct (pair_cells_from st d ps p Hd Hin) as (ps' & Hps' & Hlen).
  assert (E : p :: ps' = p :: ps).
  { eapply pair_cells_functional; [exact Hps'|]. econstructor; eassumption. }
  injection E as ->. cbn [length] in Hlen.
  exact (Nat.nle_succ_diag_l _ Hlen).
Qed.

Lemma pair_cells_bound (st : State) (v : Value) (ps : list nat) :
  pair_cells st v ps -> (length ps <= length (heap st))%nat.
Proof.
  intros H.
  assert (Hlt : forall q, In q ps -> (q < length (heap st))%nat).
  { induction H as [p Hp|p a d ps Hp Hd IH]; intros q Hq; [destruct Hq|].
    destruct Hq as [<- | Hq]; [eapply lookup_lt_Some; exact Hp | auto]. }
  assert (Hle : (length ps <= length (seq 0 (length (heap st))))%nat).
  { apply List.NoDup_incl_length; [eapply pair_cells_NoDup; exact H|].
    intros q Hq. apply in_seq. split; [apply Nat.le_0_l|]. cbn. auto. }
  rewrite List.length_seq in Hle. exact Hle.
Qed.

Lemma IsList_walk_pair_cells (st : State) (v : Value) (ps : list nat) :
  pair_cells st v ps ->
  forall fuel, (length ps < fuel)%nat -> IsList_walk fuel v st = Ok true st.
Proof.
  induction 1 as [p H|p a d ps H Hd IH]; intros fuel Hf;
    (destruct fuel as [|fuel]; [inversion Hf|]);
    cbn [IsList_walk]; unfold bind, obj; cbn [deref]; rewrite H.
  - reflexivity.
  - apply IH. cbn [length] in Hf. apply Nat.succ_lt_mono. exact Hf.
Qed.

Lemma IsList_walk_true (fuel : nat) :
  forall (v : Value) (st st' : State),
    IsList_walk fuel v st = Ok true st' ->
    st' = st /\ exists vs, proper_list st v vs.
Proof.
  induction fuel as [|fuel IH]; intros v st st' H; [discriminate H|].
  cbn [IsList_walk] in H. unfold bind, obj in H.
  destruct v as [p|]; cbn [deref] in H; [|discriminate H].
  destruct (heap st !! p) as [o|] eqn:Hp; [|discriminate H].
  destruct o; try (unfold ret in H; cbn [tag_is_null] in H; inversion H; fail).
  - unfold ret in H. inversion H; subst.
    split; [reflexivity|]. exists []. constructor. exact Hp.
  - destruct (IH _ _ _ H) as [-> [vs Hvs]]. split; [reflexivity|].
    eexists. econstructor; eassumption.
Qed.

(** X11: [list?] answers true exactly on proper lists: on every chain of
    pairs that ends in a null object, however long, and on nothing else. *)
Theorem IsList_true_iff_proper_list (v : Value) (st : State) :
  truth (IsList_evalRator v st) = Some true <-> exists vs, proper_list st v vs.
Proof.
  unfold IsList_evalRator, bind. split.
  - intros H.
    destruct (IsList_walk (S (length (heap st))) v st) as [b st'| | |] eqn:E;
      try discriminate H.
    rewrite truth_BooleanV in H. injection H as ->.
    apply IsList_walk_true in E. apply E.
  - intros [vs Hvs].
    destruct (pair_cells_of_proper_list st v vs Hvs) as (ps & Hps & _).
    rewrite (IsList_walk_pair_cells st v ps Hps).
    + apply truth_BooleanV.
    + apply Nat.lt_succ_r. eapply pair_cells_bound. exact Hps.
Qed.

(** X12: a pair gives back what it was made of: [car] and [cdr] of the pair
    [cons] makes are the very handles it was given, null handles included.
    On a value that is not a pair both raise a [RuntimeError] and leave the
    store alone, and a null handle is reported rather than dereferenced. *)
Theorem Cons_Car_Cdr_round_trip (a d : Value) (st : State) :
  exists (p : nat) (st' : State),
    Cons_evalRator a d st = Ok (Some p) st'
    /\ Car_evalRator (Some p) st' = Ok a st'
    /\ Cdr_evalRator (Some p) st' = Ok d st'
    /\ (forall v o, deref v st = Some o -> tag_is_pair o = false ->
          Car_evalRator v st = Throw "car on non-pair" st
          /\ Cdr_evalRator v st = Throw "cdr on non-pair" st)
    /\ Car_evalRator None st = Throw "car on invalid value" st
    /\ Cdr_evalRator None st = Throw "cdr on invalid value" st.
Proof.
  eexists _, _. split; [reflexivity|].
  assert (H : deref (Some (length (heap st)))
                (mkState (heap st ++ [Pair a d]) (cells st) (out st))
              = Some (Pair a d)) by apply deref_new_value.
  split; [|split; [|split; [|split; reflexivity]]].
  - unfold Car_evalRator, bind. rewrite (obj_deref _ _ _ H). reflexivity.
  - unfold Cdr_evalRator, bind. rewrite (obj_deref _ _ _ H). reflexivity.
  - intros v o Hv Ho. unfold Car_evalRator, Cdr_evalRator, bind.
    destruct v as [q|]; [|discriminate Hv].
    rewrite (obj_deref _ _ _ Hv). destruct o; try discriminate Ho; split; reflexivity.
Qed.

(** X13: [set-car!] on a pair overwrites its first field in place: the pair
    keeps its address, so that every handle to it sees the new [car] and the
    old [cdr]; every other object is as before; the answer is a new void
    object. *)
Theorem SetCar_evalRator_in_place (p : nat) (a d newcar : Value) (st : State) :
  heap st !! p = Some (Pair a d) ->
  exists st' : State,
    SetCar_evalRator (Some p) newcar st = Ok (Some (length (heap st))) st'
    /\ heap st' = <[p := Pair newcar d]> (heap st) ++ [Void]
    /\ cells st' = cells st /\ out st' = out st
    /\ Car_evalRator (Some p) st' = Ok newcar st'
    /\ Cdr_evalRator (Some p) st' = Ok d st'
    /\ (forall q, q <> p -> (q < length (heap st))%nat ->
          heap st' !! q = heap st !! q).
Proof.
  intros Hp.
  assert (Hlt : (p < length (heap st))%nat) by (eapply lookup_lt_Some; exact Hp).
  eexists. split.
  { unfold SetCar_evalRator, bind, obj. cbn [deref]. rewrite Hp.
    unfold store_object, VoidV, new_value. cbn [heap cells out].
    rewrite length_insert. reflexivity. }
  cbn [heap cells out]. repeat (split; [reflexivity|]).
  assert (Hnew : deref (Some p)
                   (mkState (<[p := Pair newcar d]> (heap st) ++ [Void])
                      (cells st) (out st)) = Some (Pair newcar d)).
  { cbn [deref heap]. apply lookup_app_l_Some.
    apply list_lookup_insert_eq. exact Hlt. }
  split; [|split].
  - unfold Car_evalRator, bind. rewrite (obj_deref _ _ _ Hnew). reflexivity.
  - unfold Cdr_evalRator, bind. rewrite (obj_deref _ _ _ Hnew). reflexivity.
  - intros q Hq Hql.
    rewrite lookup_app_l by (rewrite length_insert; exact Hql).
    apply list_lookup_insert_ne. auto.
Qed.

Lemma SetCar_evalRator_in_place_witness :
  heap two_pairs !! 0%nat = Some (Pair None None)
  /\ exists st' : State,
       SetCar_evalRator (Some 0%nat) (Some 1%nat) two_pairs = Ok (Some 2%nat) st'
       /\ Car_evalRator (Some 0%nat) st' = Ok (Some 1%nat) st'.
Proof.
  split; [reflexivity|].
  destruct (SetCar_evalRator_in_place 0 None None (Some 1%nat) two_pairs eq_refl)
    as (st' & H1 & _ & _ & _ & H2 & _).
  exists st'. split; [exact H1 | exact H2].
Defined.

Lemma IsList_walk_self_cycle (st : State) (p : nat) (a : Value) :
  heap st !! p = Some (Pair a (Some p)) ->
  forall fuel, IsList_walk fuel (Some p) st = OutOfFuel.
Proof.
  intros Hp. induction fuel as [|fuel IH]; [reflexivity|].
  cbn [IsList_walk]. unfold bind, obj. cbn [deref]. rewrite Hp. exact IH.
Qed.

(** X14: [set-cdr!] can tie a pair to itself, and [list?] then never answers:
    after [(set-cdr! p p)] the walk of [list?] over [p] comes back to [p]
    for ever. *)
Theorem SetCdr_self_then_IsList_runs_for_ever (p : nat) (a d : Value) (st : State) :
  heap st !! p = Some (Pair a d) ->
  exists st' : State,
    SetCdr_evalRator (Some p) (Some p) st = Ok (Some (length (heap st))) st'
    /\ heap st' !! p = Some (Pair a (Some p))
    /\ (forall fuel, IsList_walk fuel (Some p) st' = OutOfFuel)
    /\ IsList_evalRator (Some p) st' = OutOfFuel.
Proof.
  intros Hp.
  assert (Hlt : (p < length (heap st))%nat) by (eapply lookup_lt_Some; exact Hp).
  eexists. split.
  { unfold SetCdr_evalRator, bind, obj. cbn [deref]. rewrite Hp.
    unfold store_object, VoidV, new_value. cbn [heap cells out].
    rewrite length_insert. reflexivity. }
  assert (Hnew : heap (mkState (<[p := Pair a (Some p)]> (heap st) ++ [Void])
                         (cells st) (out st)) !! p = Some (Pair a (Some p))).
  { cbn [heap]. apply lookup_app_l_Some. apply list_lookup_insert_eq. exact Hlt. }
  split; [exact Hnew|]. split.
  - apply (IsList_walk_self_cycle _ p a Hnew).
  - unfold IsList_evalRator, bind.
    rewrite (IsList_walk_self_cycle _ p a Hnew). reflexivity.
Qed.

Lemma SetCdr_self_then_IsList_runs_for_ever_witness :
  heap two_pairs !! 0%nat = Some (Pair None None)
  /\ exists st' : State,
       SetCdr_evalRator (Some 0%nat) (Some 0%nat) two_pairs = Ok (Some 2%nat) st'
       /\ IsList_evalRator (Some 0%nat) st' = OutOfFuel.
Proof.
  split; [reflexivity|].
  destruct (SetCdr_self_then_IsList_runs_for_ever 0 None None two_pairs eq_refl)
    as (st' & H1 & _ & _ & H2).
  exists st'. split; [exact H1 | exact H2].
Defined.

(** ** Application: the two errors *)


(** X15: when the operator of an application evaluates to a value that is
    not a procedure, [Apply::eval] raises "Attempt to apply a non-procedure"
    at once: no operand is evaluated, whatever the operands are. *)
Theorem Apply_eval_non_procedure
    (prims : gmap string ExprType) (order : bool) (n : nat)
    (rator : Expr) (rand : list Expr) (e e1 : Assoc) (st st1 : State)
    (proc : Value) (o : ValueBase) :
  eval prims order n rator e st = Ok (proc, e1) st1 ->
  deref proc st1 = Some o -> tag_is_proc o = false ->
  eval prims order (S n) (Apply rator rand) e st =
    Throw "Attempt to apply a non-procedure" st1.
Proof.
  intros Hr Ho Hp. cbn [eval eval_node]. unfold bind at 1. rewrite Hr.
  unfold bind at 1. rewrite (obj_deref _ _ _ Ho).
  destruct o; try reflexivity. discriminate Hp.
Qed.

Lemma Apply_eval_non_procedure_witness :
  eval primitives true 1 (Fixnum 5) empty initial =
    Ok (Some 0%nat, empty) (mkState [Integer 5] [] [])
  /\ deref (Some 0%nat) (mkState [Integer 5] [] []) = Some (Integer 5)
  /\ tag_is_proc (Integer 5) = false
  /\ eval primitives true 2 (Apply (Fixnum 5) [Cond []]) empty initial =
       Throw "Attempt to apply a non-procedure" (mkState [Integer 5] [] []).
Proof.
  repeat (split; [reflexivity|]).
  apply (Apply_eval_non_procedure primitives true 1 (Fixnum 5) [Cond []]
           empty empty initial (mkState [Integer 5] [] []) (Some 0%nat)
           (Integer 5) eq_refl eq_refl eq_refl).
Defined.



(** ** define *)

(** X17: once the right-hand side of a [define] has a value, the definition
    succeeds and the name is found at that value in the environment the
    caller holds afterwards.  A name that was not found gets a fresh cell in
    front of the environment; a name that was found keeps its cell, which is
    overwritten, so the environment handle does not change. *)
Theorem Define_eval_then_find
    (prims : gmap string ExprType) (order : bool) (n : nat)
    (x : string) (rhs : Expr) (e e1 : Assoc) (st st1 : State) (v : Value) :
  eval prims order n rhs e st = Ok (v, e1) st1 ->
  exists (e2 : Assoc) (st2 : State),
    eval prims order (S n) (Define x rhs) e st = Ok (v, e2) st2
    /\ find x e2 st2 = v
    /\ heap st2 = heap st1 /\ out st2 = out st1
    /\ (find x e1 st1 = None ->
          e2 = (x, length (cells st1)) :: e1 /\ cells st2 = cells st1 ++ [v])
    /\ (find x e1 st1 <> None ->
          e2 = e1 /\ length (cells st2) = length (cells st1)).
Proof.
  intros Hrhs. cbn [eval eval_node]. unfold bind at 1. rewrite Hrhs.
  destruct (find x e1 st1) as [q|] eqn:Hf.
  - rewrite find_via_cell in Hf.
    destruct (modify_cell x e1) as [c|] eqn:Hc; [|discriminate Hf].
    assert (Hlt : (c < length (cells st1))%nat).
    { destruct (cells st1 !! c) eqn:E; [|discriminate Hf].
      eapply lookup_lt_Some. exact E. }
    unfold bind, modify, ret. rewrite Hc.
    eexists _, _. split; [reflexivity|]. cbn [heap cells out].
    split; [|split; [reflexivity|split; [reflexivity|split]]].
    + rewrite find_via_cell, Hc. cbn [cells].
      rewrite list_lookup_insert_eq by exact Hlt. reflexivity.
    + intros H. discriminate H.
    + intros _. split; [reflexivity | apply length_insert].
  - unfold bind, extend, ret.
    eexists _, _. split; [reflexivity|]. cbn [heap cells out].
    split; [|split; [reflexivity|split; [reflexivity|split]]].
    + cbn [find]. rewrite String.eqb_refl. cbn [cells].
      rewrite list_lookup_middle by reflexivity. reflexivity.
    + intros _. split; reflexivity.
    + intros H. contradiction.
Qed.

Lemma Define_eval_then_find_witness :
  eval primitives true 1 (Fixnum 2) empty initial =
    Ok (Some 0%nat, empty) (mkState [Integer 2] [] [])
  /\ exists (e2 : Assoc) (st2 : State),
       eval primitives true 2 (Define "x" (Fixnum 2)) empty initial =
         Ok (Some 0%nat, e2) st2
       /\ find "x" e2 st2 = Some 0%nat.
Proof.
  split; [reflexivity|].
  destruct (Define_eval_then_find primitives true 1 "x" (Fixnum 2) empty empty
              initial (mkState [Integer 2] [] []) (Some 0%nat) eq_refl)
    as (e2 & st2 & H1 & H2 & _).
  exists e2, st2. split; [exact H1 | exact H2].
Defined.

(** ** and, or, begin *)

Lemma AndVar_loop_run ev (rands : list Expr) last e st last' e' st' :
  run_of ev false rands last e st last' e' st' ->
  AndVar_loop ev rands last e st = Ok (last', e') st'
  /\ (forall x post v e2 st2,
        ev x e' st' = Ok (v, e2) st2 -> deref v st2 = Some (Boolean false) ->
        AndVar_loop ev (rands ++ x :: post) last e st = Ok (v, e2) st2).
Proof.
  induction 1 as [last e st|x rest last e st v e1 st1 o last' e' st' Hx Ho Hf Hrun [IH1 IH2]].
  - split; [reflexivity|]. intros x post v e2 st2 Hx Hv.
    cbn [app AndVar_loop]. unfold bind. rewrite Hx, (obj_deref _ _ _ Hv).
    reflexivity.
  - cbn [app AndVar_loop]. unfold bind. rewrite Hx, (obj_deref _ _ _ Ho), Hf.
    split; [exact IH1 | exact IH2].
Qed.

Lemma OrVar_loop_run ev (rands : list Expr) last e st last' e' st' :
  run_of ev true rands last e st last' e' st' ->
  OrVar_loop ev rands last e st = Ok (last', e') st'
  /\ (forall x post v e2 st2 o,
        ev x e' st' = Ok (v, e2) st2 -> deref v st2 = Some o ->
        is_false o = false ->
        OrVar_loop ev (rands ++ x :: post) last e st = Ok (v, e2) st2).
Proof.
  induction 1 as [last e st|x rest last e st v e1 st1 o last' e' st' Hx Ho Hf Hrun [IH1 IH2]].
  - split; [reflexivity|]. intros x post v e2 st2 o Hx Hv Hf.
    cbn [app OrVar_loop]. unfold bind. rewrite Hx, (obj_deref _ _ _ Hv), Hf.
    reflexivity.
  - cbn [app OrVar_loop]. unfold bind. rewrite Hx, (obj_deref _ _ _ Ho), Hf.
    split; [exact IH1 | exact IH2].
Qed.

(** X18: [and] evaluates its operands from left to right.  While they are
    truthy it goes on, and answers the value of the last one (a new true
    object when there is no operand).  At the first operand whose value is
    the boolean false it stops and answers that value: the operands behind it
    are not evaluated, whatever they are. *)
Theorem AndVar_eval_short_circuit
    (prims : gmap string ExprType) (order : bool) (n : nat)
    (pre : list Expr) (e e1 : Assoc) (st st1 : State) (last : Value) :
  run_of (eval prims order n) false pre (Some (length (heap st))) e
    (mkState (heap st ++ [Boolean true]) (cells st) (out st)) last e1 st1 ->
  eval prims order (S n) (AndVar pre) e st = Ok (last, e1) st1
  /\ (forall x post v e2 st2,
        eval prims order n x e1 st1 = Ok (v, e2) st2 ->
        deref v st2 = Some (Boolean false) ->
        eval prims order (S n) (AndVar (pre ++ x :: post)) e st = Ok (v, e2) st2).
Proof.
  intros Hrun. apply AndVar_loop_run in Hrun as [H1 H2].
  cbn [eval eval_node]. unfold bind, BooleanV, new_value. split.
  - exact H1.
  - intros x post v e2 st2 Hx Hv. eapply H2; eassumption.
Qed.

Lemma AndVar_eval_short_circuit_witness :
  eval primitives true 2 (AndVar [Fixnum 1]) empty initial =
    Ok (Some 1%nat, empty) (mkState [Boolean true; Integer 1] [] [])
  /\ eval primitives true 2 (AndVar ([Fixnum 1] ++ EFalse :: [Cond []])) empty initial =
       Ok (Some 2%nat, empty) (mkState [Boolean true; Integer 1; Boolean false] [] []).
Proof.
  assert (Hrun : run_of (eval primitives true 1) false [Fixnum 1]
                   (Some (length (heap initial))) empty
                   (mkState (heap initial ++ [Boolean true]) (cells initial) (out initial))
                   (Some 1%nat) empty (mkState [Boolean true; Integer 1] [] [])).
  { eapply run_of_cons with (o := Integer 1); [reflexivity..|]. apply run_of_nil. }
  destruct (AndVar_eval_short_circuit primitives true 1 [Fixnum 1] empty empty
              initial _ (Some 1%nat) Hrun) as [H1 H2].
  split; [exact H1|].
  apply (H2 EFalse [Cond []] (Some 2%nat) empty
           (mkState [Boolean true; Integer 1; Boolean false] [] []));
    reflexivity.
Defined.

(** X19: [or] evaluates its operands from left to right.  While their values
    are the boolean false it goes on, and answers the last one (a new false
    object when there is no operand).  At the first operand whose value is
    anything else it stops and answers that value, leaving the operands
    behind it unevaluated. *)
Theorem OrVar_eval_short_circuit
    (prims : gmap string ExprType) (order : bool) (n : nat)
    (pre : list Expr) (e e1 : Assoc) (st st1 : State) (last : Value) :
  run_of (eval prims order n) true pre (Some (length (heap st))) e
    (mkState (heap st ++ [Boolean false]) (cells st) (out st)) last e1 st1 ->
  eval prims order (S n) (OrVar pre) e st = Ok (last, e1) st1
  /\ (forall x post v e2 st2 o,
        eval prims order n x e1 st1 = Ok (v, e2) st2 ->
        deref v st2 = Some o -> is_false o = false ->
        eval prims order (S n) (OrVar (pre ++ x :: post)) e st = Ok (v, e2) st2).
Proof.
  intros Hrun. apply OrVar_loop_run in Hrun as [H1 H2].
  cbn [eval eval_node]. unfold bind, BooleanV, new_value. split.
  - exact H1.
  - intros x post v e2 st2 o Hx Hv Hf. eapply H2; eassumption.
Qed.

Lemma OrVar_eval_short_circuit_witness :
  eval primitives true 2 (OrVar [EFalse]) empty initial =
    Ok (Some 1%nat, empty) (mkState [Boolean false; Boolean false] [] [])
  /\ eval primitives true 2 (OrVar ([EFalse] ++ Fixnum 0 :: [Cond []])) empty initial =
       Ok (Some 2%nat, empty) (mkState [Boolean false; Boolean false; Integer 0] [] []).
Proof.
  assert (Hrun : run_of (eval primitives true 1) true [EFalse]
                   (Some (length (heap initial))) empty
                   (mkState (heap initial ++ [Boolean false]) (cells initial) (out initial))
                   (Some 1%nat) empty (mkState [Boolean false; Boolean false] [] [])).
  { eapply run_of_cons with (o := Boolean false); [reflexivity..|]. apply run_of_nil. }
  destruct (OrVar_eval_short_circuit primitives true 1 [EFalse] empty empty
              initial _ (Some 1%nat) Hrun) as [H1 H2].
  split; [exact H1|].
  apply (H2 (Fixnum 0) [Cond []] (Some 2%nat) empty
           (mkState [Boolean false; Boolean false; Integer 0] [] []) (Integer 0));
    reflexivity.
Defined.

Lemma last_cons {A} (v d : A) (vals : list A) :
  List.last (v :: vals) d = List.last vals v.
Proof.
  revert v d. induction vals as [|w vals IH]; intros v d; [reflexivity|].
  change (List.last (w :: vals) d = List.last (w :: vals) v).
  rewrite (IH w d), (IH w v). reflexivity.
Qed.

Lemma Begin_loop_as_rands ev (es : list Expr) :
  forall last e st,
    Begin_loop ev es last e st =
      (let* (vals, e') := eval_rands ev es e in ret (List.last vals last, e')) st.
Proof.
  induction es as [|x rest IH]; intros last e st; cbn [Begin_loop eval_rands];
    [reflexivity|].
  unfold bind, ret. destruct (ev x e st) as [[v e1] st1| | |]; try reflexivity.
  rewrite IH. unfold bind, ret.
  destruct (eval_rands ev rest e1 st1) as [[vals e2] st2| | |]; try reflexivity.
  rewrite <- (last_cons v last vals). reflexivity.
Qed.

Lemma Letrec_vals_as_rands ev (bs : list (string * Expr)) :
  forall env1 st,
    Letrec_vals ev bs env1 st = eval_rands ev (map snd bs) env1 st.
Proof.
  induction bs as [|[x rhs] bs IH]; intros env1 st; [reflexivity|].
  cbn [Letrec_vals eval_rands map snd]. unfold bind, ret.
  destruct (ev rhs env1 st) as [[v e1] st1| | |]; try reflexivity.
  rewrite IH. reflexivity.
Qed.

(** X20: [begin] creates a void object and then evaluates its forms exactly
    as an operand vector is evaluated, from left to right with the effects and
    the definitions of each form seen by the next; it answers the value of the
    last form, and the void object when there is no form.  The right-hand
    sides of a [letrec] are evaluated as an operand vector as well. *)
Theorem Begin_eval_as_operands
    (prims : gmap string ExprType) (order : bool) (n : nat)
    (es : list Expr) (e : Assoc) (st : State) :
  eval prims order (S n) (Begin es) e st =
    (let* (vals, e') := eval_rands (eval prims order n) es e in
     ret (List.last vals (Some (length (heap st))), e'))
      (mkState (heap st ++ [Void]) (cells st) (out st))
  /\ (forall (bs : list (string * Expr)) (env1 : Assoc) (st1 : State),
        Letrec_vals (eval prims order n) bs env1 st1 =
          eval_rands (eval prims order n) (map snd bs) env1 st1).
Proof.
  split.
  - cbn [eval eval_node]. unfold bind at 1. unfold VoidV, new_value.
    apply Begin_loop_as_rands.
  - intros bs env1 st1. apply Letrec_vals_as_rands.
Qed.

(** ** The range of the parser *)

Lemma size_elem (x : Syntax) (l : list Syntax) :
  In x l -> (size x <= list_sum (map size l))%nat.
Proof.
  induction l as [|y l IH]; intros H; [destruct H|].
  cbn [map].
  change (list_sum (size y :: map size l)) with (size y + list_sum (map size l))%nat.
  destruct H as [-> | H]; [lia|].
  specialize (IH H). lia.
Qed.

Lemma parse_primitive_made (op : string) (t : ExprType) (parameters : list Expr) (ex : Expr) :
  forallb parser_made parameters = true ->
  parse_primitive op t parameters = Parsed ex -> parser_made ex = true.
Proof.
  intros Hp H.
  destruct t; cbn [parse_primitive] in H; unfold unary_node, binary_node in H;
    try (injection H as <-; exact Hp);
    destruct parameters as [|p0 [|p1 [|p2 rest]]]; try discriminate H;
    injection H as <-; cbn [forallb] in Hp; cbn [parser_made parsed_binary];
    rewrite ?andb_true_r in Hp; exact Hp.
Qed.

Ltac size_tac :=
  intros;
  repeat match goal with
         | H : In _ _ |- _ => apply size_elem in H
         end;
  cbn [size map] in *; unfold list_sum in *; cbn [fold_right] in *;
  lia.

Ltac crack H :=
  repeat first
    [ discriminate H
    | match type of H with
      | Parsed _ = Parsed _ => fail 2
      | context [pbind ?m _] => destruct m eqn:?; cbn [pbind] in H
      | context [match ?x with _ => _ end] => destruct x eqn:?; cbv beta match in H
      end ].

Lemma parse_made_by_size prims rw order st env (n : nat) :
  forall s, (size s < n)%nat ->
    forall ex, parse prims rw order st env s = Parsed ex -> parser_made ex = true.
Proof.
  induction n as [|n IH]; intros s Hs ex H; [lia|].
  destruct s as [k|num den|sym|str| | |stxs];
    try (injection H as <-; reflexivity).
  assert (IHs : forall x, (size x < size (List stxs))%nat ->
            forall ex, parse prims rw order st env x = Parsed ex ->
                       parser_made ex = true)
    by (intros x Hx; apply IH; lia).
  clear IH Hs.
  assert (Hall : forall l, (forall x, In x l -> (size x < size (List stxs))%nat) ->
            forall exs,
              (fix parse_all (l : list Syntax) : Parse (list Expr) :=
                 match l with
                 | [] => Parsed []
                 | x :: rest =>
                     pbind (parse prims rw order st env x) (fun ex =>
                     pbind (parse_all rest) (fun exs => Parsed (ex :: exs)))
                 end) l = Parsed exs ->
              forallb parser_made exs = true).
  { induction l as [|x l IHl]; intros Hl exs E.
    - injection E as <-. reflexivity.
    - unfold pbind in E at 1.
      destruct (parse prims rw order st env x) as [ex0|] eqn:Ex; [|discriminate E].
      unfold pbind in E at 1.
      match type of E with
      | match ?t with _ => _ end = _ => destruct t as [exs0|] eqn:El; [|discriminate E]
      end.
      injection E as <-. cbn [forallb]. apply andb_true_intro. split.
      + eapply IHs; [|exact Ex]. apply Hl. left. reflexivity.
      + apply IHl; [|reflexivity]. intros y Hy. apply Hl. right. exact Hy. }
  assert (Hbind : forall shape name l,
            (forall x, In x l -> (size x < size (List stxs))%nat) ->
            forall vec,
              (fix parse_bindings (l : list Syntax) : Parse (list (string * Expr)) :=
                 match l with
                 | [] => Parsed []
                 | b :: rest =>
                     match b with
                     | List [b0; b1] =>
                         match b0 with
                         | SymbolSyntax sid =>
                             pbind (parse prims rw order st env b1) (fun rhs =>
                             pbind (parse_bindings rest) (fun vec =>
                             Parsed ((sid, rhs) :: vec)))
                         | _ => ParseError name
                         end
                     | _ => ParseError shape
                     end
                 end) l = Parsed vec ->
              forallb (fun b => match b with (_, rhs) => parser_made rhs end) vec = true).
  { intros shape name. induction l as [|b l IHl]; intros Hl vec E.
    - injection E as <-. reflexivity.
    - destruct b as [| | | | | |[|b0 [|b1 [|b2 bs]]]]; try discriminate E.
      destruct b0; try discriminate E.
      unfold pbind in E at 1.
      destruct (parse prims rw order st env b1) as [rhs|] eqn:Eb; [|discriminate E].
      unfold pbind in E at 1.
      match type of E with
      | match ?t with _ => _ end = _ => destruct t as [vec0|] eqn:El; [|discriminate E]
      end.
      injection E as <-. cbn [forallb]. apply andb_true_intro. split.
      + eapply IHs; [|exact Eb].
        assert (Hb := Hl _ (or_introl eq_refl)). size_tac.
      + apply IHl; [|reflexivity]. intros y Hy. apply Hl. right. exact Hy. }
  assert (Hclauses : forall l,
            (forall x, In x l -> (size x < size (List stxs))%nat) ->
            forall clauses,
              (fix parse_clauses (l : list Syntax) : Parse (list (list Expr)) :=
                 match l with
                 | [] => Parsed []
                 | c :: rest =>
                     match c with
                     | List (c0 :: citems) =>
                         pbind (parse prims rw order st env c0) (fun ce0 =>
                         pbind ((fix parse_all (l : list Syntax) : Parse (list Expr) :=
                                   match l with
                                   | [] => Parsed []
                                   | x :: rest =>
                                       pbind (parse prims rw order st env x) (fun ex =>
                                       pbind (parse_all rest) (fun exs => Parsed (ex :: exs)))
                                   end) citems) (fun ce =>
                         pbind (parse_clauses rest) (fun clauses =>
                         Parsed ((ce0 :: ce) :: clauses))))
                     | _ => ParseError "cond clause must be a list"
                     end
                 end) l = Parsed clauses ->
              forallb (fun clause =>
                         match clause with
                         | [] => false
                         | _ => forallb parser_made clause
                         end) clauses = true).
  { induction l as [|c l IHl]; intros Hl clauses E.
    - injection E as <-. reflexivity.
    - destruct c as [| | | | | |[|c0 citems]]; try discriminate E.
      unfold pbind in E at 1.
      destruct (parse prims rw order st env c0) as [ce0|] eqn:Ec; [|discriminate E].
      unfold pbind in E at 1.
      match type of E with
      | match ?t with _ => _ end = _ => destruct t as [ce|] eqn:Ei; [|discriminate E]
      end.
      unfold pbind in E at 1.
      match type of E with
      | match ?t with _ => _ end = _ => destruct t as [cls|] eqn:El; [|discriminate E]
      end.
      injection E as <-. cbn [forallb]. apply andb_true_intro. split.
      + apply andb_true_intro. split.
        * eapply IHs; [|exact Ec].
          assert (Hb := Hl _ (or_introl eq_refl)). size_tac.
        * eapply Hall; [|exact Ei]. intros y Hy.
          assert (Hb := Hl _ (or_introl eq_refl)). size_tac.
      + apply IHl; [|reflexivity]. intros y Hy. apply Hl. right. exact Hy. }
  cbn [parse] in H. cbv zeta in H.
  destruct stxs as [|first rest]; [injection H as <-; reflexivity|].
  crack H;
    first
      [ injection H as <-; cbn [parser_made parsed_binary];
        repeat (apply andb_true_intro; split);
        first
          [ reflexivity
          | eapply IHs; [|eassumption]; size_tac
          | eapply Hall; [|eassumption]; size_tac
          | eapply Hbind; [|eassumption]; size_tac
          | eapply Hclauses; [|eassumption]; size_tac ]
      | eapply parse_primitive_made; [|exact H];
        eapply Hall; [|eassumption]; size_tac ].
Qed.

(** X21: whatever the two tables, the environment and the syntax tree, a
    successful parse contains no [and] or [or] node, no ordering node
    ([<], [<=], [=], [>=], [>]), no [expt], [void] or [exit] node and no
    variadic arithmetic or ordering node, at any depth, and every [cond]
    clause it holds has at least one expression.  Source text reaches those
    primitives only as applications of a variable. *)
Theorem parser_never_builds
    (prims rw : gmap string ExprType) (order : bool) (st : State) (env : Assoc)
    (s : Syntax) (ex : Expr) :
  parse prims rw order st env s = Parsed ex -> parser_made ex = true.
Proof. apply (parse_made_by_size prims rw order st env (S (size s))). lia. Qed.

Lemma parser_never_builds_witness :
  parse primitives reserved_words true initial empty factorial_form =
    Parsed factorial_parsed
  /\ parser_made factorial_parsed = true.
Proof.
  assert (H : parse primitives reserved_words true initial empty factorial_form =
                Parsed factorial_parsed) by (vm_compute; reflexivity).
  split; [exact H|].
  exact (parser_never_builds primitives reserved_words true initial empty
           factorial_form factorial_parsed H).
Defined.

(** ** Truthiness *)

(** X22: only the boolean false is falsy.  [if] evaluates its condition,
    then the alternative when the condition's value is the boolean false and
    the consequent for every other value (0, the empty list, the empty string
    and void included), never both; and [not] answers true on exactly the
    values that send [if] to its alternative. *)
Theorem If_eval_truthiness
    (prims : gmap string ExprType) (order : bool) (n : nat)
    (cond conseq alter : Expr) (e e1 : Assoc) (st st1 : State)
    (c : Value) (o : ValueBase) :
  eval prims order n cond e st = Ok (c, e1) st1 ->
  deref c st1 = Some o ->
  eval prims order (S n) (If cond conseq alter) e st =
    (if is_false o then eval prims order n alter e1 st1
     else eval prims order n conseq e1 st1)
  /\ (is_false o = true <-> o = Boolean false)
  /\ truth (Not_evalRator c st1) = Some (is_false o).
Proof.
  intros Hc Ho. split; [|split].
  - cbn [eval eval_node]. unfold bind at 1. rewrite Hc.
    unfold bind. rewrite (obj_deref _ _ _ Ho). destruct (is_false o); reflexivity.
  - split; [|intros ->; reflexivity].
    destruct o as [| |[|]| | | | | | |]; try discriminate; reflexivity.
  - unfold Not_evalRator, bind. rewrite (obj_deref _ _ _ Ho).
    apply truth_BooleanV.
Qed.

Lemma If_eval_truthiness_witness :
  eval primitives true 1 (Fixnum 0) empty initial =
    Ok (Some 0%nat, empty) (mkState [Integer 0] [] [])
  /\ deref (Some 0%nat) (mkState [Integer 0] [] []) = Some (Integer 0)
  /\ answer (eval primitives true 2 (If (Fixnum 0) (StringExpr "then") (StringExpr "else"))
               empty initial) = Some (StringO "then").
Proof.
  split; [reflexivity|]. split; [reflexivity|].
  destruct (If_eval_truthiness primitives true 1 (Fixnum 0) (StringExpr "then")
              (StringExpr "else") empty empty initial (mkState [Integer 0] [] [])
              (Some 0%nat) (Integer 0) eq_refl eq_refl) as [H _].
  rewrite H. reflexivity.
Defined.

(** ** set! *)

(** X23: [set!] on a name that is found in the environment: once the
    right-hand side has a value, the cell of the name is overwritten in place,
    the value is answered, the caller's handle is unchanged, and the name is
    found at the new value.  No cell is added and no other cell changes. *)
Theorem SetE_eval_then_find
    (prims : gmap string ExprType) (order : bool) (n : nat)
    (x : string) (rhs : Expr) (e e1 : Assoc) (st st1 : State) (v : Value)
    (q : nat) :
  eval prims order n rhs e st = Ok (v, e1) st1 ->
  find x e1 st1 = Some q ->
  exists (c : nat) (st2 : State),
    eval prims order (S n) (SetE x rhs) e st = Ok (v, e1) st2
    /\ find x e1 st2 = v
    /\ heap st2 = heap st1 /\ out st2 = out st1
    /\ cells st2 = <[c := v]> (cells st1)
    /\ cells st1 !! c = Some (Some q).
Proof.
  intros Hrhs Hf. rewrite find_via_cell in Hf.
  destruct (modify_cell x e1) as [c|] eqn:Hc; [|discriminate Hf].
  destruct (cells st1 !! c) as [w|] eqn:Hw; [|discriminate Hf].
  cbn in Hf. subst w.
  assert (Hlt : (c < length (cells st1))%nat) by (eapply lookup_lt_Some; exact Hw).
  exists c. eexists. split.
  { cbn [eval eval_node]. unfold bind at 1. rewrite Hrhs.
    unfold bind, modify, ret. rewrite Hc. reflexivity. }
  cbn [heap cells out].
  split; [|split; [reflexivity|split; [reflexivity|split; [reflexivity|exact Hw]]]].
  rewrite find_via_cell, Hc. cbn [cells].
  rewrite list_lookup_insert_eq by exact Hlt. reflexivity.
Qed.

Lemma SetE_eval_then_find_witness :
  eval primitives true 1 (Fixnum 5) [("x", 0%nat)] (mkState [Integer 1] [Some 0%nat] []) =
    Ok (Some 1%nat, [("x", 0%nat)]) (mkState [Integer 1; Integer 5] [Some 0%nat] [])
  /\ find "x" [("x", 0%nat)] (mkState [Integer 1; Integer 5] [Some 0%nat] []) = Some 0%nat
  /\ exists (c : nat) (st2 : State),
       eval primitives true 2 (SetE "x" (Fixnum 5)) [("x", 0%nat)]
         (mkState [Integer 1] [Some 0%nat] []) = Ok (Some 1%nat, [("x", 0%nat)]) st2
       /\ find "x" [("x", 0%nat)] st2 = Some 1%nat.
Proof.
  split; [reflexivity|]. split; [reflexivity|].
  destruct (SetE_eval_then_find primitives true 1 "x" (Fixnum 5)
              [("x", 0%nat)] [("x", 0%nat)]
              (mkState [Integer 1] [Some 0%nat] [])
              (mkState [Integer 1; Integer 5] [Some 0%nat] [])
              (Some 1%nat) 0%nat eq_refl eq_refl)
    as (c & st2 & H1 & H2 & _).
  exists c, st2. split; [exact H1 | exact H2].
Defined.

(** ** letrec, in general *)



(** ** A primitive reached through its name *)

Lemma eval_two_literals prims order n (a b : Z) (e : Assoc) (st : State) :
  eval_rands (eval prims order (S n)) [Fixnum a; Fixnum b] e st =
    Ok ([Some (length (heap st)); Some (S (length (heap st)))], e)
       (mkState (heap st ++ [Integer a; Integer b]) (cells st) (out st)).
Proof.
  cbn [eval_rands eval eval_node]. unfold bind, IntegerV, new_value, ret.
  cbn [heap cells out]. rewrite length_app, Nat.add_1_r, <- app_assoc.
  reflexivity.
Qed.

(** A two-operand primitive over two distinct parameters, in the call
    environment that binds them: both orders of evaluation read the two
    cells and pass their contents to the primitive. *)
Lemma eval_Binary_of_parameters prims order n (op : BinaryOp) (x1 x2 : string)
    (c1 c2 p1 p2 : nat) (env : Assoc) (st : State) :
  x1 <> x2 ->
  cells st !! c1 = Some (Some p1) -> cells st !! c2 = Some (Some p2) ->
  eval prims order (S (S n)) (Binary op (Var x1) (Var x2))
    ((x2, c2) :: (x1, c1) :: env) st =
    (let* r := Binary_evalRator op (Some p1) (Some p2) in
     ret (r, (x2, c2) :: (x1, c1) :: env)) st.
Proof.
  intros Hne H1 H2.
  assert (F1 : find x1 ((x2, c2) :: (x1, c1) :: env) st = Some p1).
  { cbn [find]. destruct (String.eqb_spec x1 x2) as [E | _]; [contradiction|].
    rewrite String.eqb_refl, H1. reflexivity. }
  assert (F2 : find x2 ((x2, c2) :: (x1, c1) :: env) st = Some p2).
  { cbn [find]. rewrite String.eqb_refl, H2. reflexivity. }
  cbn [eval eval_node]. unfold Binary_rands.
  destruct order; cbn [eval eval_node]; unfold bind, Var_eval, ret;
    [ rewrite F1; cbv beta iota; rewrite F2
    | rewrite F2; cbv beta iota; rewrite F1 ]; reflexivity.
Qed.

(** X25: [expt] written in source text.  The parser has no case for it and
    makes the application of the variable [expt]; [Var::eval] answers the
    closure of its table, over [parm1] and [parm2]; the application binds the
    two operands and runs the primitive.  So [(expt a b)] answers [a ^ b]
    when the power fits an [int] and raises the overflow error when it does
    not, where [expt] is not bound in the environment. *)
Theorem expt_through_its_name
    (prims : gmap string ExprType) (order : bool) (n : nat)
    (e : Assoc) (st : State) (a b : Z) :
  find "expt" e st = None -> prims !! "expt" = Some E_EXPT ->
  0 <= b -> (a <> 0 \/ b <> 0) ->
  (forall rw env st0,
     find "expt" env st0 = None ->
     parse prims rw order st0 env (List [SymbolSyntax "expt"; Number a; Number b]) =
       Parsed (Apply (Var "expt") [Fixnum a; Fixnum b]))
  /\ if fits_int (a ^ b)
     then answer (eval prims order (S (S (S n)))
                    (Apply (Var "expt") [Fixnum a; Fixnum b]) e st)
          = Some (Integer (a ^ b))
     else exists st', eval prims order (S (S (S n)))
                        (Apply (Var "expt") [Fixnum a; Fixnum b]) e st
                      = Throw "Integer overflow in expt" st'.
Proof.
  intros Hfind Hprim Hb Hnz. split.
  { intros rw env st0 Hf. cbn [parse]. cbv zeta. rewrite Hf, Hprim. reflexivity. }
  assert (Hexpt : primitive_map E_EXPT =
            Some (Binary Expt (Var "parm1") (Var "parm2"), ["parm1"; "parm2"]))
    by reflexivity.
  set (st3 := mkState ((heap st ++ [Procedure ["parm1"; "parm2"] (Binary Expt (Var "parm1") (Var "parm2")) e]) ++ [Integer a; Integer b])
                (cells st ++ [Some (length (heap st ++ [Procedure ["parm1"; "parm2"] (Binary Expt (Var "parm1") (Var "parm2")) e]));
                              Some (S (length (heap st ++ [Procedure ["parm1"; "parm2"] (Binary Expt (Var "parm1") (Var "parm2")) e])))])
                (out st)).
  assert (Ha : deref (Some (length (heap st ++ [Procedure ["parm1"; "parm2"] (Binary Expt (Var "parm1") (Var "parm2")) e]))) st3 = Some (Integer a)).
  { unfold st3; cbn [deref heap].
    change [Integer a; Integer b] with ([Integer a] ++ [Integer b]).
    rewrite app_assoc. apply lookup_app_l_Some. apply list_lookup_middle. reflexivity. }
  assert (Hbb : deref (Some (S (length (heap st ++ [Procedure ["parm1"; "parm2"] (Binary Expt (Var "parm1") (Var "parm2")) e])))) st3 = Some (Integer b)).
  { unfold st3; cbn [deref heap].
    change [Integer a; Integer b] with ([Integer a] ++ [Integer b]).
    rewrite app_assoc. apply list_lookup_middle.
    rewrite !length_app. cbn [length]. lia. }
  assert (Heval :
    eval prims order (S (S (S n))) (Apply (Var "expt") [Fixnum a; Fixnum b]) e st =
      (let* r := Expt_evalRator (Some (length (heap st ++ [Procedure ["parm1"; "parm2"] (Binary Expt (Var "parm1") (Var "parm2")) e])))
                   (Some (S (length (heap st ++ [Procedure ["parm1"; "parm2"] (Binary Expt (Var "parm1") (Var "parm2")) e])))) in
       ret (r, e)) st3).
  { change (eval prims order (S (S (S n))) (Apply (Var "expt") [Fixnum a; Fixnum b]) e st)
      with (eval_node prims order (eval prims order (S (S n)))
              (Apply (Var "expt") [Fixnum a; Fixnum b]) e st).
    cbn [eval_node]. unfold bind at 1.
    rewrite (Var_eval_primitive prims order (S n) "expt" e st E_EXPT _ _ Hfind Hprim Hexpt).
    unfold bind at 1, obj at 1. rewrite (proj2 (deref_new_value _ st)).
    unfold bind at 1. rewrite eval_two_literals.
    cbn [heap cells out length Nat.eqb negb].
    unfold bind at 1. rewrite bind_parameters_spec by reflexivity.
    cbn [heap cells out length seq combine rev app]. fold st3.
    unfold bind at 1.
    rewrite (eval_Binary_of_parameters prims order n Expt "parm1" "parm2"
               (length (cells st)) (S (length (cells st)))
               (length (heap st ++ [Procedure ["parm1"; "parm2"] (Binary Expt (Var "parm1") (Var "parm2")) e])) (S (length (heap st ++ [Procedure ["parm1"; "parm2"] (Binary Expt (Var "parm1") (Var "parm2")) e])))
               e st3).
    - cbn [Binary_evalRator]. unfold bind, ret.
      destruct (Expt_evalRator _ _ st3); reflexivity.
    - discriminate.
    - unfold st3; cbn [cells]. apply list_lookup_middle. reflexivity.
    - unfold st3; cbn [cells].
      change [Some (length (heap st ++ [Procedure ["parm1"; "parm2"] (Binary Expt (Var "parm1") (Var "parm2")) e])); Some (S (length (heap st ++ [Procedure ["parm1"; "parm2"] (Binary Expt (Var "parm1") (Var "parm2")) e])))]
        with ([Some (length (heap st ++ [Procedure ["parm1"; "parm2"] (Binary Expt (Var "parm1") (Var "parm2")) e]))]
                ++ [Some (S (length (heap st ++ [Procedure ["parm1"; "parm2"] (Binary Expt (Var "parm1") (Var "parm2")) e])))]).
      rewrite app_assoc. rewrite list_lookup_middle; [reflexivity|].
      rewrite (length_app (cells st)). cbn [length]. symmetry. apply Nat.add_1_r. }
  rewrite Heval. unfold bind.
  rewrite (Expt_evalRator_on_integers _ _ st3 a b Ha Hbb Hb Hnz).
  destruct (fits_int (a ^ b)).
  - unfold ret, answer. apply deref_new_value.
  - eexists. reflexivity.
Qed.

Lemma expt_through_its_name_witness :
  find "expt" empty initial = None /\ primitives !! "expt" = Some E_EXPT
  /\ 0 <= 10 /\ (2 <> 0 \/ 10 <> 0)
  /\ answer (eval primitives true 3 (Apply (Var "expt") [Fixnum 2; Fixnum 10])
               empty initial) = Some (Integer 1024).
Proof.
  assert (Hp : primitives !! "expt" = Some E_EXPT) by (vm_compute; reflexivity).
  split; [reflexivity|]. split; [exact Hp|].
  split; [discriminate|]. split; [left; discriminate|].
  destruct (expt_through_its_name primitives true 0 empty initial 2 10
              eq_refl Hp) as [_ H].
  - discriminate.
  - left. discriminate.
  - exact H.
Defined.

(** ** The quote form *)

(** X26: [(quote s)] is taken as it is: where [quote] is the reserved word
    and is neither bound nor a primitive, the parser answers the quotation of
    [s] without parsing [s], so every syntax tree can be quoted, and
    evaluating the form answers a value that represents [s], with nothing
    changed in the store but the objects added. *)
Theorem quote_form_round_trip
    (prims rw : gmap string ExprType) (order : bool) (n : nat)
    (env : Assoc) (st : State) (s : Syntax) :
  find "quote" env st = None -> prims !! "quote" = None ->
  rw !! "quote" = Some E_QUOTE ->
  parse prims rw order st env (List [SymbolSyntax "quote"; s]) = Parsed (Quote s)
  /\ exists (p : nat) (st' : State),
       eval prims order (S n) (Quote s) env st = Ok (Some p, env) st'
       /\ represents st' (Some p) s
       /\ (exists more, heap st' = heap st ++ more)
       /\ cells st' = cells st /\ out st' = out st.
Proof.
  intros Hf Hp Hr. split.
  - cbn [parse]. cbv zeta. rewrite Hf, Hp, Hr. reflexivity.
  - destruct (Quote_eval_represents s st) as (p & st' & Hq & Hm & Hc & Ho & Hrep).
    exists p, st'. split.
    + cbn [eval eval_node]. unfold bind. rewrite Hq. reflexivity.
    + auto.
Qed.

Lemma quote_form_round_trip_witness :
  find "quote" empty initial = None /\ primitives !! "quote" = None
  /\ reserved_words !! "quote" = Some E_QUOTE
  /\ parse primitives reserved_words true initial empty
       (List [SymbolSyntax "quote"; List [Number 1; SymbolSyntax "if"]]) =
       Parsed (Quote (List [Number 1; SymbolSyntax "if"])).
Proof.
  assert (Hp : primitives !! "quote" = None) by (vm_compute; reflexivity).
  assert (Hr : reserved_words !! "quote" = Some E_QUOTE) by (vm_compute; reflexivity).
  split; [reflexivity|]. split; [exact Hp|]. split; [exact Hr|].
  apply (quote_form_round_trip primitives reserved_words true 0 empty initial
           (List [Number 1; SymbolSyntax "if"]) eq_refl Hp Hr).
Defined.

(** ** let *)

(** The loop of [Let::eval] extends [local] and nothing else: after the
    right-hand sides, [local] is what it was with the new cells in front. *)
Lemma Let_loop_of_rhs ev bs env st vals cs env' st' :
  Let_rhs ev bs env st vals cs env' st' ->
  forall local,
    Let_loop ev bs env local st =
      Ok (env', rev (combine (map fst bs) cs) ++ local) st'.
Proof.
  induction 1 as [env st | x rhs rest env st v env1 st1 vals cs env' st' Hrhs _ IH];
    intros local.
  - reflexivity.
  - cbn [Let_loop]. unfold bind at 1. rewrite Hrhs.
    unfold bind at 1, extend at 1. rewrite IH.
    cbn [map fst combine rev]. rewrite <- app_assoc. reflexivity.
Qed.

Lemma Let_rhs_cells ev bs env st vals cs env' st' :
  (forall ex e, steady (ev ex e)) ->
  Let_rhs ev bs env st vals cs env' st' ->
  length vals = length bs /\ length cs = length bs
  /\ Forall (fun c => (length (cells st) <= c < length (cells st'))%nat) cs
  /\ NoDup cs
  /\ (length (cells st) <= length (cells st'))%nat.
Proof.
  intros Hev.
  induction 1 as [env st | x rhs rest env st v env1 st1 vals cs env' st' Hrhs _ IH].
  - repeat split; constructor.
  - destruct IH as (Hv & Hc & Hfresh & Hnd & Hgrow).
    pose proof (Hev rhs env st) as Hk. rewrite Hrhs in Hk.
    destruct Hk as (_ & Hc1 & _).
    cbn [cells] in Hfresh, Hgrow. rewrite length_app in Hfresh, Hgrow.
    cbn [length] in Hfresh, Hgrow.
    split; [cbn [length]; congruence|]. split; [cbn [length]; congruence|].
    split; [|split].
    + constructor.
      * split; [exact Hc1 | lia].
      * eapply Forall_impl; [exact Hfresh|]. cbn. intros c Hcc. lia.
    + apply NoDup_cons. split; [|exact Hnd].
      intros Hin. rewrite Forall_forall in Hfresh.
      specialize (Hfresh _ Hin). lia.
    + lia.
Qed.

(** X27: the environment of a [let] body.  Each right-hand side is evaluated
    in the environment the caller holds, as the right-hand sides before it
    left it, and never in the extended one: the right-hand sides do not see
    the new names.  When they all have values, the body is evaluated in the
    environment the [let] was entered with, extended by one new cell per
    binding, in order; so a [define] made by a right-hand side is not seen by
    the body.  The caller is left with the handle the right-hand sides
    produced; what the body defines does not reach it. *)
Theorem Let_eval_environment
    (prims : gmap string ExprType) (order : bool) (n : nat)
    (bs : list (string * Expr)) (body : Expr)
    (e env' : Assoc) (st st' : State) (vals : list Value) (cs : list nat) :
  Let_rhs (eval prims order n) bs e st vals cs env' st' ->
  eval prims order (S n) (Let bs body) e st =
    (let* (v, _) := eval prims order n body (rev (combine (map fst bs) cs) ++ e) in
     ret (v, env')) st'
  /\ length vals = length bs /\ length cs = length bs
  /\ Forall (fun c => (length (cells st) <= c < length (cells st'))%nat) cs
  /\ NoDup cs.
Proof.
  intros H. split.
  - cbn [eval eval_node]. unfold bind at 1.
    rewrite (Let_loop_of_rhs _ _ _ _ _ _ _ _ H e). reflexivity.
  - destruct (Let_rhs_cells _ _ _ _ _ _ _ _ (steady_eval prims order n) H)
      as (H1 & H2 & H3 & H4 & _).
    auto.
Qed.

Lemma Let_eval_environment_witness :
  Let_rhs (eval primitives true 1) [("x", Fixnum 1); ("y", Var "x")]
    [("x", 0%nat)] (mkState [Integer 5] [Some 0%nat] [])
    [Some 1%nat; Some 0%nat] [1%nat; 2%nat]
    [("x", 0%nat)]
    (mkState [Integer 5; Integer 1] [Some 0%nat; Some 1%nat; Some 0%nat] [])
  /\ answer (eval primitives true 2
               (Let [("x", Fixnum 1); ("y", Var "x")] (Var "y"))
               [("x", 0%nat)] (mkState [Integer 5] [Some 0%nat] []))
     = Some (Integer 5).
Proof.
  assert (H : Let_rhs (eval primitives true 1) [("x", Fixnum 1); ("y", Var "x")]
                [("x", 0%nat)] (mkState [Integer 5] [Some 0%nat] [])
                [Some 1%nat; Some 0%nat] [1%nat; 2%nat]
                [("x", 0%nat)]
                (mkState [Integer 5; Integer 1] [Some 0%nat; Some 1%nat; Some 0%nat] [])).
  { apply (Let_rhs_cons (eval primitives true 1) "x" (Fixnum 1) [("y", Var "x")]
             [("x", 0%nat)] (mkState [Integer 5] [Some 0%nat] [])
             (Some 1%nat) [("x", 0%nat)]
             (mkState [Integer 5; Integer 1] [Some 0%nat] [])
             [Some 0%nat] [2%nat] [("x", 0%nat)]
             (mkState [Integer 5; Integer 1] [Some 0%nat; Some 1%nat; Some 0%nat] []));
      [reflexivity|].
    apply (Let_rhs_cons (eval primitives true 1) "y" (Var "x") []
             [("x", 0%nat)] (mkState [Integer 5; Integer 1] [Some 0%nat; Some 1%nat] [])
             (Some 0%nat) [("x", 0%nat)]
             (mkState [Integer 5; Integer 1] [Some 0%nat; Some 1%nat] [])
             [] [] [("x", 0%nat)]
             (mkState [Integer 5; Integer 1] [Some 0%nat; Some 1%nat; Some 0%nat] []));
      [reflexivity|].
    apply Let_rhs_nil. }
  split; [exact H|].
  destruct (Let_eval_environment primitives true 1
              [("x", Fixnum 1); ("y", Var "x")] (Var "y")
              [("x", 0%nat)] [("x", 0%nat)]
              (mkState [Integer 5] [Some 0%nat] [])
              (mkState [Integer 5; Integer 1] [Some 0%nat; Some 1%nat; Some 0%nat] [])
              [Some 1%nat; Some 0%nat] [1%nat; 2%nat] H) as [Heval _].
  rewrite Heval. reflexivity.
Defined.
